(** * go-metrics: the tagged counter (counter.go, taggable.go)

    A shallow embedding of the three [Counter] implementations
    ([NilCounter], [CounterSnapshot], [StandardCounter]) over an explicit
    store.  Go maps and the two pointer-receiver structs are reference
    objects, so the store holds them at addresses and a method call is a
    computation in a small state-and-panic monad. *)

From stdpp Require Import base option gmap strings list fin_maps.
From Stdlib Require Import ZArith Lia.

Local Open Scope Z_scope.

(* ===================================================================== *)
(** * int64 arithmetic *)
(* ===================================================================== *)

Definition min_int64 : Z := - 2 ^ 63.
Definition max_int64 : Z := 2 ^ 63 - 1.

Definition is_int64 (z : Z) : Prop := min_int64 ≤ z ≤ max_int64.

(** The value an int64 register holds after an exact result [z]:
    the representative of [z] modulo 2^64 in [-2^63, 2^63). *)
Definition wrap64 (z : Z) : Z := (z + 2 ^ 63) mod 2 ^ 64 - 2 ^ 63.

(** Go's [a + b] and unary [-a] on int64. *)
Definition add64 (a b : Z) : Z := wrap64 (a + b).
Definition neg64 (a : Z) : Z := wrap64 (- a).

(* ===================================================================== *)
(** * Values and the store *)
(* ===================================================================== *)

Abbreviation loc := positive (only parsing).

(** A typed pointer [*A]. *)
Record ptr (A : Type) : Type := Ptr { addr : loc }.
Arguments Ptr {A} _.
Arguments addr {A} _.

(** A value of type [map[string]string]: [None] is the nil map, [Some l]
    refers to the map object at [l].  Copying the value copies the
    reference, never the entries. *)
Abbreviation tags_t := (option loc) (only parsing).

(** [type CounterSnapshot struct { count int64; tags map[string]string }] *)
Record CounterSnapshot : Type := mkCounterSnapshot {
  snap_count : Z;
  snap_tags : tags_t
}.

(** [type NilCounter struct{}] *)
Inductive NilCounter : Type := mkNilCounter.

(** [type StandardCounter struct { count int64; tags map[string]string }] *)
Record StandardCounter : Type := mkStandardCounter {
  std_count : Z;
  std_tags : tags_t
}.

(** A value of the interface type [Counter]: the dynamic type together
    with the value, which for the two pointer receivers is the pointer. *)
Inductive Counter : Type :=
  | INil (n : NilCounter)
  | ISnapshot (p : ptr CounterSnapshot)
  | IStandard (p : ptr StandardCounter).

(** The store.  [UseNilMetrics] is the package-level flag that
    [NewCounter] reads; it is declared outside counter.go. *)
Record Store : Type := mkStore {
  UseNilMetrics : bool;
  maps : gmap loc (gmap string string);
  snapshots : gmap loc CounterSnapshot;
  standards : gmap loc StandardCounter
}.

Definition set_maps (f : gmap loc (gmap string string) → gmap loc (gmap string string))
    (σ : Store) : Store :=
  mkStore (UseNilMetrics σ) (f (maps σ)) (snapshots σ) (standards σ).

Definition set_snapshots (f : gmap loc CounterSnapshot → gmap loc CounterSnapshot)
    (σ : Store) : Store :=
  mkStore (UseNilMetrics σ) (maps σ) (f (snapshots σ)) (standards σ).

Definition set_standards (f : gmap loc StandardCounter → gmap loc StandardCounter)
    (σ : Store) : Store :=
  mkStore (UseNilMetrics σ) (maps σ) (snapshots σ) (f (standards σ)).

(** The entries a map value denotes; the nil map has none. *)
Definition entries (σ : Store) (t : tags_t) : gmap string string :=
  match t with
  | None => ∅
  | Some l => default ∅ (maps σ !! l)
  end.

(* ===================================================================== *)
(** * Computations: state and panics *)
(* ===================================================================== *)

Inductive result (A : Type) : Type :=
  | Ok (a : A) (σ : Store)
  | Panic (msg : string).
Arguments Ok {A} _ _.
Arguments Panic {A} _.

Definition M (A : Type) : Type := Store → result A.

Definition ret {A} (a : A) : M A := λ σ, Ok a σ.

Definition bind {A B} (m : M A) (k : A → M B) : M B :=
  λ σ, match m σ with
       | Ok a σ' => k a σ'
       | Panic msg => Panic msg
       end.

Definition panic {A} (msg : string) : M A := λ _, Panic msg.

Declare Scope go_scope.
Delimit Scope go_scope with go.
Notation "x <~ m ;; k" := (bind m (λ x, k))
  (at level 100, m at next level, right associativity) : go_scope.
Notation "m ;;; k" := (bind m (λ _, k))
  (at level 100, right associativity) : go_scope.
Local Open Scope go_scope.

(** [for _, x := range xs { body x }] over an already evaluated sequence. *)
Fixpoint for_each {A} (xs : list A) (body : A → M unit) : M unit :=
  match xs with
  | [] => ret tt
  | x :: xs' => body x ;;; for_each xs' body
  end.

Definition succeeds {A} (r : result A) : Prop := ∃ a σ, r = Ok a σ.
Definition panics {A} (r : result A) : Prop := ∃ msg, r = Panic msg.

(** ** Runtime primitives *)

Definition nil_dereference : string :=
  "invalid memory address or nil pointer dereference".
Definition nil_map_assignment : string :=
  "assignment to entry in nil map".

(** Reading and writing the fields of a [*StandardCounter]. *)
Definition load_std (p : ptr StandardCounter) : M StandardCounter :=
  λ σ, match standards σ !! addr p with
       | Some c => Ok c σ
       | None => Panic nil_dereference
       end.

Definition store_std (p : ptr StandardCounter) (c : StandardCounter) : M unit :=
  λ σ, Ok tt (set_standards (insert (addr p) c) σ).

Definition load_std_tags (p : ptr StandardCounter) : M tags_t :=
  c <~ load_std p ;; ret (std_tags c).

Definition store_std_tags (p : ptr StandardCounter) (t : tags_t) : M unit :=
  c <~ load_std p ;; store_std p (mkStandardCounter (std_count c) t).

(** sync/atomic on the [count] field of the counter at [p]; each is one
    indivisible step of the store. *)
Definition atomic_StoreInt64 (p : ptr StandardCounter) (v : Z) : M unit :=
  c <~ load_std p ;; store_std p (mkStandardCounter v (std_tags c)).

Definition atomic_LoadInt64 (p : ptr StandardCounter) : M Z :=
  c <~ load_std p ;; ret (std_count c).

Definition atomic_AddInt64 (p : ptr StandardCounter) (delta : Z) : M Z :=
  c <~ load_std p ;;
  let v := add64 (std_count c) delta in
  store_std p (mkStandardCounter v (std_tags c)) ;;;
  ret v.

(** Reading the fields of a [*CounterSnapshot]. *)
Definition load_snap (p : ptr CounterSnapshot) : M CounterSnapshot :=
  λ σ, match snapshots σ !! addr p with
       | Some s => Ok s σ
       | None => Panic nil_dereference
       end.

(** [&CounterSnapshot{...}]: a new object at an unused address. *)
Definition new_snapshot (s : CounterSnapshot) : M (ptr CounterSnapshot) :=
  λ σ, let l := fresh (dom (snapshots σ)) in
       Ok (Ptr l) (set_snapshots (insert l s) σ).

(** [&StandardCounter{...}] *)
Definition new_standard (c : StandardCounter) : M (ptr StandardCounter) :=
  λ σ, let l := fresh (dom (standards σ)) in
       Ok (Ptr l) (set_standards (insert l c) σ).

(** [map[string]string{}]: a new, empty, non-nil map. *)
Definition make_map : M tags_t :=
  λ σ, let l := fresh (dom (maps σ)) in
       Ok (Some l) (set_maps (insert l ∅) σ).

(** [len(t)] *)
Definition map_len (t : tags_t) : M nat :=
  λ σ, Ok (size (entries σ t)) σ.

(** The key/value pairs [range t] yields.  Go leaves the order
    unspecified; [range_order_irrelevant] below shows the loops of this
    file do not depend on it. *)
Definition map_range (t : tags_t) : M (list (string * string)) :=
  λ σ, Ok (map_to_list (entries σ t)) σ.

(** [t[k] = v] *)
Definition map_assign (t : tags_t) (k v : string) : M unit :=
  λ σ, match t with
       | None => Panic nil_map_assignment
       | Some l => Ok tt (set_maps (insert l (<[k:=v]> (entries σ t))) σ)
       end.

(* ===================================================================== *)
(** * The interfaces *)
(* ===================================================================== *)

(** [type Taggable interface { AddTags(map[string]string); GetTags() map[string]string }] *)
Class Taggable (T : Type) : Type := {
  AddTags : T → tags_t → M unit;
  GetTags : T → M tags_t
}.

(** [type Counter interface { Clear(); Count() int64; Dec(int64);
    Inc(int64); Snapshot() Counter; Taggable }] *)
Class CounterMethods (T : Type) `{Taggable T} : Type := {
  Clear : T → M unit;
  Count : T → M Z;
  Dec : T → Z → M unit;
  Inc : T → Z → M unit;
  Snapshot : T → M Counter
}.

(* ===================================================================== *)
(** * CounterSnapshot *)
(* ===================================================================== *)

Definition CounterSnapshot_Clear (c : ptr CounterSnapshot) : M unit :=
  panic "Clear called on a CounterSnapshot".

Definition CounterSnapshot_Count (c : ptr CounterSnapshot) : M Z :=
  s <~ load_snap c ;; ret (snap_count s).

Definition CounterSnapshot_Dec (c : ptr CounterSnapshot) (_ : Z) : M unit :=
  panic "Dec called on a CounterSnapshot".

Definition CounterSnapshot_Inc (c : ptr CounterSnapshot) (_ : Z) : M unit :=
  panic "Inc called on a CounterSnapshot".

Definition CounterSnapshot_Snapshot (c : ptr CounterSnapshot) : M Counter :=
  ret (ISnapshot c).

Definition CounterSnapshot_AddTags (c : ptr CounterSnapshot) (tags : tags_t) : M unit :=
  panic "AddTags called on a CounterSnapshot".

Definition CounterSnapshot_GetTags (c : ptr CounterSnapshot) : M tags_t :=
  s <~ load_snap c ;; ret (snap_tags s).

#[export] Instance CounterSnapshot_Taggable : Taggable (ptr CounterSnapshot) := {
  AddTags := CounterSnapshot_AddTags;
  GetTags := CounterSnapshot_GetTags
}.

#[export] Instance CounterSnapshot_Counter : CounterMethods (ptr CounterSnapshot) := {
  Clear := CounterSnapshot_Clear;
  Count := CounterSnapshot_Count;
  Dec := CounterSnapshot_Dec;
  Inc := CounterSnapshot_Inc;
  Snapshot := CounterSnapshot_Snapshot
}.

(* ===================================================================== *)
(** * NilCounter *)
(* ===================================================================== *)

Definition NilCounter_Clear (_ : NilCounter) : M unit := ret tt.

Definition NilCounter_Count (_ : NilCounter) : M Z := ret 0.

Definition NilCounter_Dec (_ : NilCounter) (i : Z) : M unit := ret tt.

Definition NilCounter_Inc (_ : NilCounter) (i : Z) : M unit := ret tt.

Definition NilCounter_Snapshot (_ : NilCounter) : M Counter :=
  ret (INil mkNilCounter).

Definition NilCounter_AddTags (_ : NilCounter) (tags : tags_t) : M unit := ret tt.

Definition NilCounter_GetTags (_ : NilCounter) : M tags_t := ret None.

#[export] Instance NilCounter_Taggable : Taggable NilCounter := {
  AddTags := NilCounter_AddTags;
  GetTags := NilCounter_GetTags
}.

#[export] Instance NilCounter_Counter : CounterMethods NilCounter := {
  Clear := NilCounter_Clear;
  Count := NilCounter_Count;
  Dec := NilCounter_Dec;
  Inc := NilCounter_Inc;
  Snapshot := NilCounter_Snapshot
}.

(* ===================================================================== *)
(** * StandardCounter *)
(* ===================================================================== *)

Definition StandardCounter_Clear (c : ptr StandardCounter) : M unit :=
  atomic_StoreInt64 c 0.

Definition StandardCounter_Count (c : ptr StandardCounter) : M Z :=
  atomic_LoadInt64 c.

Definition StandardCounter_Dec (c : ptr StandardCounter) (i : Z) : M unit :=
  atomic_AddInt64 c (neg64 i) ;;; ret tt.

Definition StandardCounter_Inc (c : ptr StandardCounter) (i : Z) : M unit :=
  atomic_AddInt64 c i ;;; ret tt.

Definition StandardCounter_Snapshot (c : ptr StandardCounter) : M Counter :=
  t <~ load_std_tags c ;;
  n <~ map_len t ;;
  if decide (n = 0%nat) then
    v <~ StandardCounter_Count c ;;
    q <~ new_snapshot (mkCounterSnapshot v None) ;;
    ret (ISnapshot q)
  else
    tagsCopy <~ make_map ;;
    t <~ load_std_tags c ;;
    kvs <~ map_range t ;;
    for_each kvs (λ kv, map_assign tagsCopy kv.1 kv.2) ;;;
    v <~ StandardCounter_Count c ;;
    q <~ new_snapshot (mkCounterSnapshot v tagsCopy) ;;
    ret (ISnapshot q).

Definition StandardCounter_AddTags (c : ptr StandardCounter) (tags : tags_t) : M unit :=
  t <~ load_std_tags c ;;
  if decide (t = None) then
    store_std_tags c tags
  else
    kvs <~ map_range tags ;;
    for_each kvs (λ kv, t <~ load_std_tags c ;; map_assign t kv.1 kv.2).

Definition StandardCounter_GetTags (c : ptr StandardCounter) : M tags_t :=
  load_std_tags c.

#[export] Instance StandardCounter_Taggable : Taggable (ptr StandardCounter) := {
  AddTags := StandardCounter_AddTags;
  GetTags := StandardCounter_GetTags
}.

#[export] Instance StandardCounter_Counter : CounterMethods (ptr StandardCounter) := {
  Clear := StandardCounter_Clear;
  Count := StandardCounter_Count;
  Dec := StandardCounter_Dec;
  Inc := StandardCounter_Inc;
  Snapshot := StandardCounter_Snapshot
}.

(* ===================================================================== *)
(** * Construction and dynamic dispatch *)
(* ===================================================================== *)

Definition NewCounter : M Counter :=
  λ σ, if UseNilMetrics σ then Ok (INil mkNilCounter) σ
       else (p <~ new_standard (mkStandardCounter 0 None) ;; ret (IStandard p)) σ.

(** A method call through the [Counter] interface and what it returns. *)
Inductive call : Type :=
  | CallClear
  | CallCount
  | CallDec (i : Z)
  | CallInc (i : Z)
  | CallSnapshot
  | CallAddTags (tags : tags_t)
  | CallGetTags.

Inductive retval : Type :=
  | RNone
  | RInt64 (v : Z)
  | RCounter (c : Counter)
  | RTags (t : tags_t).

Definition method {T} `{CounterMethods T} (recv : T) (op : call) : M retval :=
  match op with
  | CallClear => Clear recv ;;; ret RNone
  | CallCount => v <~ Count recv ;; ret (RInt64 v)
  | CallDec i => Dec recv i ;;; ret RNone
  | CallInc i => Inc recv i ;;; ret RNone
  | CallSnapshot => s <~ Snapshot recv ;; ret (RCounter s)
  | CallAddTags tags => AddTags recv tags ;;; ret RNone
  | CallGetTags => t <~ GetTags recv ;; ret (RTags t)
  end.

Definition invoke (c : Counter) (op : call) : M retval :=
  match c with
  | INil n => method n op
  | ISnapshot p => method p op
  | IStandard p => method p op
  end.

(** A sequence of calls on one receiver, results collected in order. *)
Fixpoint invoke_all (c : Counter) (ops : list call) : M (list retval) :=
  match ops with
  | [] => ret []
  | op :: ops' =>
      r <~ invoke c op ;;
      rs <~ invoke_all c ops' ;;
      ret (r :: rs)
  end.

(** What it means for a receiver to be an object of the store. *)
Definition live (σ : Store) (c : Counter) : Prop :=
  match c with
  | INil _ => True
  | ISnapshot p => is_Some (snapshots σ !! addr p)
  | IStandard p => is_Some (standards σ !! addr p)
  end.

Definition is_mutator (op : call) : bool :=
  match op with
  | CallClear | CallDec _ | CallInc _ | CallAddTags _ => true
  | CallCount | CallSnapshot | CallGetTags => false
  end.

Definition is_snapshot (c : Counter) : bool :=
  match c with ISnapshot _ => true | _ => false end.

(* ===================================================================== *)
(** * Derived notions used in the statements *)
(* ===================================================================== *)

(** The entries of a map after [m[k] = v] for each pair, in order. *)
Definition assign_list (kvs : list (string * string)) (m : gmap string string)
    : gmap string string :=
  foldl (λ m kv, <[kv.1:=kv.2]> m) m kvs.

(** The store after the same assignments to the map object at [l]. *)
Definition assign_at (l : loc) (kvs : list (string * string)) (σ : Store) : Store :=
  foldl (λ σ kv, set_maps (insert l (<[kv.1:=kv.2]> (entries σ (Some l)))) σ) σ kvs.

(** The store after the struct at [p] is overwritten. *)
Definition with_std (σ : Store) (p : ptr StandardCounter) (c' : StandardCounter) : Store :=
  set_standards (insert (addr p) c') σ.

(** A map literal [map[string]string{k1: v1, ...}] at a call site. *)
Definition map_literal (kvs : list (string * string)) : M tags_t :=
  t <~ make_map ;;
  for_each kvs (λ kv, map_assign t kv.1 kv.2) ;;;
  ret t.

(** An interleaving of [Inc] and [Dec] calls on one counter.  Each call
    is a single atomic add, so every concurrent execution of the calls is
    one such sequence. *)
Inductive update : Type :=
  | UInc (a : Z)
  | UDec (b : Z).

Definition apply_update (p : ptr StandardCounter) (u : update) : M unit :=
  match u with
  | UInc a => StandardCounter_Inc p a
  | UDec b => StandardCounter_Dec p b
  end.

Fixpoint sum_incs (us : list update) : Z :=
  match us with
  | [] => 0
  | UInc a :: us' => a + sum_incs us'
  | UDec _ :: us' => sum_incs us'
  end.

Fixpoint sum_decs (us : list update) : Z :=
  match us with
  | [] => 0
  | UInc _ :: us' => sum_decs us'
  | UDec b :: us' => b + sum_decs us'
  end.

(** The message of the panic a mutating call on a snapshot raises. *)
Definition misuse_message (op : call) : string :=
  match op with
  | CallClear => "Clear called on a CounterSnapshot"
  | CallDec _ => "Dec called on a CounterSnapshot"
  | CallInc _ => "Inc called on a CounterSnapshot"
  | CallAddTags _ => "AddTags called on a CounterSnapshot"
  | CallCount | CallSnapshot | CallGetTags => EmptyString
  end.

(** What every call on a [NilCounter] returns. *)
Definition nil_answer (op : call) : retval :=
  match op with
  | CallClear | CallDec _ | CallInc _ | CallAddTags _ => RNone
  | CallCount => RInt64 0
  | CallSnapshot => RCounter (INil mkNilCounter)
  | CallGetTags => RTags None
  end.

(** A snapshot [q] (holding [s]) and a live counter [p] that share no
    map object. *)
Definition separate (σ : Store) (p : ptr StandardCounter)
    (q : ptr CounterSnapshot) (s : CounterSnapshot) : Prop :=
  snapshots σ !! addr q = Some s ∧
  ∃ c, standards σ !! addr p = Some c ∧
       ∀ l, snap_tags s = Some l →
            is_Some (maps σ !! l) ∧ ∃ l0, std_tags c = Some l0 ∧ l0 ≠ l.

(** The part of the store a call through [IStandard p] may change. *)
Definition call_frame (σ σ' : Store) (c c' : StandardCounter) : Prop :=
  UseNilMetrics σ' = UseNilMetrics σ ∧
  (∀ l, is_Some (maps σ !! l) → std_tags c ≠ Some l → maps σ' !! l = maps σ !! l) ∧
  (∀ l, is_Some (maps σ !! l) → is_Some (maps σ' !! l)) ∧
  (∀ l, is_Some (snapshots σ !! l) → snapshots σ' !! l = snapshots σ !! l) ∧
  (std_tags c ≠ None → std_tags c' = std_tags c).

(** What each method promises about the field it is not about. *)
Definition call_keeps (op : call) (σ σ' : Store) (c c' : StandardCounter) : Prop :=
  match op with
  | CallCount | CallGetTags => σ' = σ ∧ c' = c
  | CallSnapshot => c' = c ∧ entries σ' (std_tags c) = entries σ (std_tags c)
  | CallClear | CallDec _ | CallInc _ =>
      std_tags c' = std_tags c ∧ maps σ' = maps σ
  | CallAddTags _ => std_count c' = std_count c
  end.

(** A store with one StandardCounter, at address 1, holding count 9 and
    the tag map {a:2, b:3}, at address 2. *)
Definition tagged_store : Store :=
  mkStore false
    {[ 2%positive := {[ "a" := "2"; "b" := "3" ]} ]}
    ∅
    {[ 1%positive := mkStandardCounter 9 (Some 2%positive) ]}.

(** A store with one StandardCounter without tags, at address 1, and the
    two maps {a:1} and {a:2, b:3}, at addresses 1 and 2. *)
Definition two_maps_store : Store :=
  mkStore false
    {[ 1%positive := {[ "a" := "1" ]};
       2%positive := {[ "a" := "2"; "b" := "3" ]} ]}
    ∅
    {[ 1%positive := mkStandardCounter 0 None ]}.

(** An empty store, with the flag as given. *)
Definition empty_store (flag : bool) : Store := mkStore flag ∅ ∅ ∅.

(** Every count held in the store, by a counter or by a snapshot, is an
    int64. *)
Definition counts_int64 (σ : Store) : Prop :=
  map_Forall (λ _ c, is_int64 (std_count c)) (standards σ) ∧
  map_Forall (λ _ s, is_int64 (snap_count s)) (snapshots σ).

(** A store with two StandardCounters without tags, at addresses 1 and 2,
    and the maps {a:1} and {b:3}, at addresses 1 and 2. *)
Definition two_counters_store : Store :=
  mkStore false
    {[ 1%positive := {[ "a" := "1" ]};
       2%positive := {[ "b" := "3" ]} ]}
    ∅
    {[ 1%positive := mkStandardCounter 0 None;
       2%positive := mkStandardCounter 4 None ]}.

(* ===================================================================== *)
(** * Facts about int64 wrap-around *)
(* ===================================================================== *)

Lemma wrap64_range (z : Z) : is_int64 (wrap64 z).
Proof.
  unfold is_int64, wrap64, min_int64, max_int64.
  pose proof (Z.mod_pos_bound (z + 2 ^ 63) (2 ^ 64) ltac:(lia)). lia.
Qed.

Lemma wrap64_mod (z : Z) : wrap64 z mod 2 ^ 64 = z mod 2 ^ 64.
Proof.
  unfold wrap64.
  rewrite <- Zminus_mod_idemp_l, Z.mod_mod by lia.
  rewrite Zminus_mod_idemp_l. f_equal. lia.
Qed.

Lemma wrap64_id (z : Z) : is_int64 z → wrap64 z = z.
Proof.
  unfold is_int64, wrap64, min_int64, max_int64. intros Hz.
  rewrite Z.mod_small by lia. lia.
Qed.

Lemma wrap64_eq_mod (a b : Z) : a mod 2 ^ 64 = b mod 2 ^ 64 → wrap64 a = wrap64 b.
Proof.
  intros Hab. unfold wrap64. f_equal.
  rewrite <- (Zplus_mod_idemp_l a), <- (Zplus_mod_idemp_l b). by rewrite Hab.
Qed.

Lemma wrap64_add_l (a b : Z) : wrap64 (wrap64 a + b) = wrap64 (a + b).
Proof.
  apply wrap64_eq_mod.
  rewrite <- Zplus_mod_idemp_l, wrap64_mod. apply Zplus_mod_idemp_l.
Qed.

Lemma wrap64_add_r (a b : Z) : wrap64 (a + wrap64 b) = wrap64 (a + b).
Proof. rewrite (Z.add_comm a), wrap64_add_l. f_equal. lia. Qed.

Lemma add64_neg64 (a b : Z) : add64 a (neg64 b) = wrap64 (a - b).
Proof. unfold add64, neg64. by rewrite wrap64_add_r. Qed.

Lemma neg64_min_int64 : neg64 min_int64 = min_int64.
Proof. reflexivity. Qed.

(* ===================================================================== *)
(** * Range loops over a tag map *)
(* ===================================================================== *)

Lemma assign_list_union kvs (m : gmap string string) :
  assign_list kvs m = list_to_map (reverse kvs) ∪ m.
Proof.
  unfold assign_list. revert m.
  induction kvs as [|[k v] kvs IH]; intros m; simpl.
  - by rewrite (left_id_L ∅ (∪)).
  - rewrite IH, reverse_cons, list_to_map_app. simpl.
    rewrite <- (assoc_L (∪)). f_equal.
    by rewrite insert_empty, <- insert_union_singleton_l.
Qed.

Lemma assign_list_map_to_list (m m0 : gmap string string) :
  assign_list (map_to_list m) m0 = m ∪ m0.
Proof.
  rewrite assign_list_union. f_equal.
  rewrite <- (list_to_map_to_list m) at 2.
  apply list_to_map_proper.
  - rewrite reverse_Permutation. apply NoDup_fst_map_to_list.
  - apply reverse_Permutation.
Qed.

(** Go does not fix the order in which [range] visits a map: any order
    of the same pairs leaves the same entries. *)
Lemma range_order_irrelevant (kvs kvs' : list (string * string)) m :
  NoDup kvs.*1 → kvs ≡ₚ kvs' → assign_list kvs m = assign_list kvs' m.
Proof.
  intros Hnd Hp. rewrite !assign_list_union. f_equal.
  apply list_to_map_proper.
  - by rewrite reverse_Permutation.
  - by rewrite !reverse_Permutation.
Qed.

Lemma entries_insert_eq σ l m :
  entries (set_maps (insert l m) σ) (Some l) = m.
Proof. simpl. by rewrite lookup_insert_eq. Qed.

Lemma entries_insert_ne σ l l' m :
  l ≠ l' → entries (set_maps (insert l m) σ) (Some l') = entries σ (Some l').
Proof. intros Hne. simpl. by rewrite lookup_insert_ne. Qed.

Lemma assign_at_cons l kv kvs σ :
  assign_at l (kv :: kvs) σ =
  set_maps (insert l (assign_list (kv :: kvs) (entries σ (Some l)))) σ.
Proof.
  revert kv σ. induction kvs as [|kv' kvs IH]; intros kv σ; [done|].
  change (assign_at l (kv :: kv' :: kvs) σ)
    with (assign_at l (kv' :: kvs)
            (set_maps (insert l (<[kv.1:=kv.2]> (entries σ (Some l)))) σ)).
  rewrite IH, entries_insert_eq. unfold set_maps; simpl.
  by rewrite insert_insert_eq.
Qed.

(** The loop of [Snapshot]: [tagsCopy[k] = v]. *)
Lemma for_each_assign l kvs σ :
  for_each kvs (λ kv, map_assign (Some l) kv.1 kv.2) σ = Ok tt (assign_at l kvs σ).
Proof.
  revert σ. induction kvs as [|kv kvs IH]; intros σ; [done|].
  simpl. unfold bind at 1. simpl. rewrite IH. done.
Qed.

(** What a range loop into the map at [l] leaves in the store. *)
Lemma assign_at_flag l kvs σ : UseNilMetrics (assign_at l kvs σ) = UseNilMetrics σ.
Proof. destruct kvs; [done|]. by rewrite assign_at_cons. Qed.

Lemma assign_at_snapshots l kvs σ : snapshots (assign_at l kvs σ) = snapshots σ.
Proof. destruct kvs; [done|]. by rewrite assign_at_cons. Qed.

Lemma assign_at_standards l kvs σ : standards (assign_at l kvs σ) = standards σ.
Proof. destruct kvs; [done|]. by rewrite assign_at_cons. Qed.

Lemma assign_at_maps_ne l l' kvs σ :
  l ≠ l' → maps (assign_at l kvs σ) !! l' = maps σ !! l'.
Proof.
  intros Hne. destruct kvs; [done|]. rewrite assign_at_cons. simpl.
  by rewrite lookup_insert_ne.
Qed.

Lemma assign_at_entries l kvs σ :
  entries (assign_at l kvs σ) (Some l) = assign_list kvs (entries σ (Some l)).
Proof. destruct kvs; [done|]. by rewrite assign_at_cons, entries_insert_eq. Qed.

(* ===================================================================== *)
(** * One call on a live StandardCounter *)
(* ===================================================================== *)

Lemma bind_Ok {A B} (m : M A) (k : A → M B) σ a σ' :
  m σ = Ok a σ' → bind m k σ = k a σ'.
Proof. unfold bind. by intros ->. Qed.

Lemma load_std_Ok p σ c :
  standards σ !! addr p = Some c → load_std p σ = Ok c σ.
Proof. unfold load_std. by intros ->. Qed.

Lemma load_std_tags_Ok p σ c :
  standards σ !! addr p = Some c → load_std_tags p σ = Ok (std_tags c) σ.
Proof. intros Hc. unfold load_std_tags. by rewrite (bind_Ok _ _ _ _ _ (load_std_Ok _ _ _ Hc)). Qed.

Lemma load_snap_Ok q σ s :
  snapshots σ !! addr q = Some s → load_snap q σ = Ok s σ.
Proof. unfold load_snap. by intros ->. Qed.

Lemma CounterSnapshot_Count_Ok q σ s :
  snapshots σ !! addr q = Some s → CounterSnapshot_Count q σ = Ok (snap_count s) σ.
Proof.
  intros Hs. unfold CounterSnapshot_Count.
  by rewrite (bind_Ok _ _ _ _ _ (load_snap_Ok _ _ _ Hs)).
Qed.

Lemma CounterSnapshot_GetTags_Ok q σ s :
  snapshots σ !! addr q = Some s → CounterSnapshot_GetTags q σ = Ok (snap_tags s) σ.
Proof.
  intros Hs. unfold CounterSnapshot_GetTags.
  by rewrite (bind_Ok _ _ _ _ _ (load_snap_Ok _ _ _ Hs)).
Qed.

Lemma Count_Ok p σ c :
  standards σ !! addr p = Some c → StandardCounter_Count p σ = Ok (std_count c) σ.
Proof.
  intros Hc. unfold StandardCounter_Count, atomic_LoadInt64.
  by rewrite (bind_Ok _ _ _ _ _ (load_std_Ok _ _ _ Hc)).
Qed.

(** The loop of [AddTags]: [c.tags[k] = tag]. *)
Lemma for_each_assign_field p l kvs σ c :
  standards σ !! addr p = Some c → std_tags c = Some l →
  for_each kvs (λ kv, t <~ load_std_tags p ;; map_assign t kv.1 kv.2) σ
  = Ok tt (assign_at l kvs σ).
Proof.
  intros Hc Hl. revert σ Hc. induction kvs as [|kv kvs IH]; intros σ Hc; [done|].
  simpl. unfold bind at 1.
  rewrite (bind_Ok _ _ _ _ _ (load_std_tags_Ok _ _ _ Hc)), Hl. simpl.
  by rewrite IH.
Qed.

Section one_call.
Variables (σ : Store) (p : ptr StandardCounter) (c : StandardCounter).
Hypothesis Hc : standards σ !! addr p = Some c.

Lemma Clear_run :
  StandardCounter_Clear p σ = Ok tt (with_std σ p (mkStandardCounter 0 (std_tags c))).
Proof.
  unfold StandardCounter_Clear, atomic_StoreInt64.
  by rewrite (bind_Ok _ _ _ _ _ (load_std_Ok _ _ _ Hc)).
Qed.

Lemma Count_run : StandardCounter_Count p σ = Ok (std_count c) σ.
Proof. by apply Count_Ok. Qed.

Lemma Inc_run i :
  StandardCounter_Inc p i σ
  = Ok tt (with_std σ p (mkStandardCounter (add64 (std_count c) i) (std_tags c))).
Proof.
  unfold StandardCounter_Inc, atomic_AddInt64, bind.
  by rewrite (load_std_Ok _ _ _ Hc).
Qed.

Lemma Dec_run i :
  StandardCounter_Dec p i σ
  = Ok tt (with_std σ p (mkStandardCounter (add64 (std_count c) (neg64 i)) (std_tags c))).
Proof.
  unfold StandardCounter_Dec, atomic_AddInt64, bind.
  by rewrite (load_std_Ok _ _ _ Hc).
Qed.

Lemma GetTags_run : StandardCounter_GetTags p σ = Ok (std_tags c) σ.
Proof. by apply load_std_tags_Ok. Qed.

Lemma AddTags_nil_run tags :
  std_tags c = None →
  StandardCounter_AddTags p tags σ
  = Ok tt (with_std σ p (mkStandardCounter (std_count c) tags)).
Proof.
  intros Hnil. unfold StandardCounter_AddTags.
  rewrite (bind_Ok _ _ _ _ _ (load_std_tags_Ok _ _ _ Hc)), Hnil. simpl.
  unfold store_std_tags. by rewrite (bind_Ok _ _ _ _ _ (load_std_Ok _ _ _ Hc)).
Qed.

Lemma AddTags_merge_run tags l :
  std_tags c = Some l →
  StandardCounter_AddTags p tags σ
  = Ok tt (assign_at l (map_to_list (entries σ tags)) σ).
Proof.
  intros Hl. unfold StandardCounter_AddTags.
  rewrite (bind_Ok _ _ _ _ _ (load_std_tags_Ok _ _ _ Hc)), Hl. simpl.
  unfold bind, map_range. by apply for_each_assign_field with c.
Qed.

Lemma Snapshot_empty_run :
  entries σ (std_tags c) = ∅ →
  StandardCounter_Snapshot p σ =
    let q := fresh (dom (snapshots σ)) in
    Ok (ISnapshot (Ptr q))
       (set_snapshots (insert q (mkCounterSnapshot (std_count c) None)) σ).
Proof.
  intros He. unfold StandardCounter_Snapshot.
  rewrite (bind_Ok _ _ _ _ _ (load_std_tags_Ok _ _ _ Hc)).
  unfold bind at 1, map_len. rewrite He, map_size_empty. simpl.
  by rewrite (bind_Ok _ _ _ _ _ Count_run).
Qed.

Lemma Snapshot_copy_run :
  entries σ (std_tags c) ≠ ∅ →
  StandardCounter_Snapshot p σ =
    let l' := fresh (dom (maps σ)) in
    let σ1 := assign_at l' (map_to_list (entries σ (std_tags c)))
                (set_maps (insert l' ∅) σ) in
    let q := fresh (dom (snapshots σ)) in
    Ok (ISnapshot (Ptr q))
       (set_snapshots (insert q (mkCounterSnapshot (std_count c) (Some l'))) σ1).
Proof.
  intros He. unfold StandardCounter_Snapshot.
  rewrite (bind_Ok _ _ _ _ _ (load_std_tags_Ok _ _ _ Hc)).
  unfold bind at 1, map_len.
  destruct (decide (size (entries σ (std_tags c)) = 0%nat)) as [Hz|_].
  { by apply map_size_empty_iff in Hz. }
  unfold bind at 1, make_map.
  set (l' := fresh (dom (maps σ))).
  assert (Hfresh : maps σ !! l' = None).
  { apply not_elem_of_dom. apply is_fresh. }
  assert (Hne : std_tags c ≠ Some l').
  { intros Heq. apply He. rewrite Heq. simpl. by rewrite Hfresh. }
  set (σ0 := set_maps (insert l' ∅) σ).
  assert (Hc0 : standards σ0 !! addr p = Some c) by done.
  rewrite (bind_Ok _ _ _ _ _ (load_std_tags_Ok _ _ _ Hc0)).
  unfold bind at 1, map_range.
  assert (Hent : entries σ0 (std_tags c) = entries σ (std_tags c)).
  { destruct (std_tags c) as [l|]; [|done]. apply entries_insert_ne. congruence. }
  rewrite Hent. unfold bind at 1. rewrite for_each_assign.
  set (σ1 := assign_at l' _ σ0).
  assert (Hc1 : standards σ1 !! addr p = Some c).
  { unfold σ1. by rewrite assign_at_standards. }
  rewrite (bind_Ok _ _ _ _ _ (Count_Ok _ _ _ Hc1)).
  unfold bind, new_snapshot, ret. simpl.
  replace (snapshots σ1) with (snapshots σ); [done|].
  unfold σ1. by rewrite assign_at_snapshots.
Qed.
End one_call.

(* ===================================================================== *)
(** * Counting *)
(* ===================================================================== *)

Lemma NewCounter_standard σ :
  UseNilMetrics σ = false →
  NewCounter σ =
    let l := fresh (dom (standards σ)) in
    Ok (IStandard (Ptr l)) (with_std σ (Ptr l) (mkStandardCounter 0 None)).
Proof. unfold NewCounter. by intros ->. Qed.

Lemma with_std_lookup σ p c : standards (with_std σ p c) !! addr p = Some c.
Proof. simpl. apply lookup_insert_eq. Qed.

(** Running updates from a count that represents the exact total [acc]
    ends in the count that represents the exact total after them. *)
Lemma updates_run p t us : ∀ σ acc,
  standards σ !! addr p = Some (mkStandardCounter (wrap64 acc) t) →
  ∃ σ', for_each us (apply_update p) σ = Ok tt σ' ∧
        standards σ' !! addr p
        = Some (mkStandardCounter (wrap64 (acc + (sum_incs us - sum_decs us))) t).
Proof.
  induction us as [|u us IH]; intros σ acc Hc.
  - exists σ. split; [done|]. rewrite Hc. do 3 f_equal. simpl. lia.
  - destruct u as [a|b]; simpl; unfold bind at 1.
    + rewrite (Inc_run _ _ _ Hc a). simpl std_count. simpl std_tags.
      unfold add64. rewrite wrap64_add_l.
      destruct (IH (with_std σ p (mkStandardCounter (wrap64 (acc + a)) t)) (acc + a))
        as (σ' & Hrun & Hfin); [apply with_std_lookup|].
      exists σ'. split; [done|]. rewrite Hfin. do 3 f_equal. lia.
    + rewrite (Dec_run _ _ _ Hc b). simpl std_count. simpl std_tags.
      rewrite add64_neg64, <- Z.add_opp_r, wrap64_add_l, Z.add_opp_r.
      destruct (IH (with_std σ p (mkStandardCounter (wrap64 (acc - b)) t)) (acc - b))
        as (σ' & Hrun & Hfin); [apply with_std_lookup|].
      exists σ'. split; [done|]. rewrite Hfin. do 3 f_equal. lia.
Qed.

(** C1. Any interleaving of Inc(a1)..Inc(an) and Dec(b1)..Dec(bm) on a
    fresh StandardCounter (made by NewCounter with metrics enabled, value
    0) runs to completion, and Count() then returns the int64 that
    represents (sum of the a's) - (sum of the b's) modulo 2^64: it lies in
    [-2^63, 2^63) and is congruent to the exact difference. *)
Theorem Count_after_updates (σ : Store) (us : list update) :
  UseNilMetrics σ = false →
  ∃ p σ1 σ2 v,
    NewCounter σ = Ok (IStandard p) σ1 ∧
    for_each us (apply_update p) σ1 = Ok tt σ2 ∧
    StandardCounter_Count p σ2 = Ok v σ2 ∧
    v = wrap64 (sum_incs us - sum_decs us) ∧
    is_int64 v ∧
    v mod 2 ^ 64 = (sum_incs us - sum_decs us) mod 2 ^ 64.
Proof.
  intros Hflag. rewrite (NewCounter_standard _ Hflag). simpl.
  set (p := Ptr (fresh (dom (standards σ)))).
  set (σ1 := with_std σ p _).
  destruct (updates_run p None us σ1 0 (with_std_lookup _ _ _)) as (σ2 & Hrun & Hfin).
  exists p, σ1, σ2, (wrap64 (sum_incs us - sum_decs us)).
  split; [done|]. split; [done|]. split.
  - by rewrite (Count_Ok _ _ _ Hfin).
  - split; [done|]. split; [apply wrap64_range | apply wrap64_mod].
Qed.

(** The count wraps from the largest int64 to the smallest. *)
Lemma Count_after_updates_witness :
  ∃ p σ1 σ2 v,
    NewCounter (empty_store false) = Ok (IStandard p) σ1 ∧
    for_each [UInc max_int64; UDec (-1)] (apply_update p) σ1 = Ok tt σ2 ∧
    StandardCounter_Count p σ2 = Ok v σ2 ∧
    v = wrap64 (sum_incs [UInc max_int64; UDec (-1)]
                - sum_decs [UInc max_int64; UDec (-1)]) ∧
    is_int64 v ∧
    v mod 2 ^ 64
    = (sum_incs [UInc max_int64; UDec (-1)]
       - sum_decs [UInc max_int64; UDec (-1)]) mod 2 ^ 64.
Proof. apply (Count_after_updates (empty_store false)). reflexivity. Defined.

(** C5. Whatever a StandardCounter holds, Clear() followed at once by
    Count() returns 0. *)
Theorem Clear_then_Count (σ : Store) (p : ptr StandardCounter) (c : StandardCounter) :
  standards σ !! addr p = Some c →
  ∃ σ', (StandardCounter_Clear p ;;; StandardCounter_Count p) σ = Ok 0 σ'.
Proof.
  intros Hc. eexists.
  rewrite (bind_Ok _ _ _ _ _ (Clear_run _ _ _ Hc)).
  by rewrite (Count_Ok _ _ _ (with_std_lookup _ _ _)).
Qed.

Lemma Clear_then_Count_witness :
  ∃ σ', (StandardCounter_Clear (Ptr 1%positive) ;;;
         StandardCounter_Count (Ptr 1%positive))
          (mkStore false ∅ ∅ {[1%positive := mkStandardCounter 42 None]})
        = Ok 0 σ'.
Proof.
  apply (Clear_then_Count _ _ (mkStandardCounter 42 None)). reflexivity.
Defined.

(** C9. On every store, Dec(i) is the very computation Inc(-i), with the
    negation taken in int64: the negated amount is the int64 congruent to
    -i modulo 2^64, which for the least int64 is that value itself. *)
Theorem Dec_is_Inc_neg (σ : Store) (p : ptr StandardCounter) (i : Z) :
  StandardCounter_Dec p i σ = StandardCounter_Inc p (neg64 i) σ ∧
  is_int64 (neg64 i) ∧
  neg64 i mod 2 ^ 64 = (- i) mod 2 ^ 64 ∧
  StandardCounter_Dec p min_int64 σ = StandardCounter_Inc p min_int64 σ.
Proof.
  split; [done|]. split; [apply wrap64_range|]. split; [apply wrap64_mod|].
  unfold StandardCounter_Dec. by rewrite neg64_min_int64.
Qed.

(* ===================================================================== *)
(** * Snapshots of snapshots, the no-op counter, construction *)
(* ===================================================================== *)

(** C6. Snapshot() on a CounterSnapshot returns the receiver: the same
    pointer, with the store untouched.  Hence every call on the returned
    value, Count() and GetTags() among them, is that call on the receiver,
    and snapshotting again changes nothing. *)
Theorem Snapshot_of_snapshot (σ : Store) (q : ptr CounterSnapshot) :
  CounterSnapshot_Snapshot q σ = Ok (ISnapshot q) σ ∧
  (∀ op, (r <~ CounterSnapshot_Snapshot q ;; invoke r op) σ = invoke (ISnapshot q) op σ) ∧
  (r <~ CounterSnapshot_Snapshot q ;; invoke r CallSnapshot) σ
  = Ok (RCounter (ISnapshot q)) σ.
Proof. done. Qed.

Lemma invoke_nil n op σ : invoke (INil n) op σ = Ok (nil_answer op) σ.
Proof. by destruct op. Qed.

(** C7. Any sequence of calls on a NilCounter runs without touching the
    store; each Count() in it returns 0, each Snapshot() a NilCounter,
    each GetTags() the nil map, and Clear, Inc, Dec and AddTags return
    nothing.  After the sequence Count() is still 0 and GetTags() still
    nil. *)
Theorem NilCounter_inert (σ : Store) (n : NilCounter) (ops : list call) :
  invoke_all (INil n) ops σ = Ok (nil_answer <$> ops) σ ∧
  (invoke_all (INil n) ops ;;; NilCounter_Count n) σ = Ok 0 σ ∧
  (invoke_all (INil n) ops ;;; NilCounter_GetTags n) σ = Ok None σ ∧
  (invoke_all (INil n) ops ;;; NilCounter_Snapshot n) σ = Ok (INil mkNilCounter) σ.
Proof.
  assert (Hall : invoke_all (INil n) ops σ = Ok (nil_answer <$> ops) σ).
  { induction ops as [|op ops IH]; [done|].
    simpl. rewrite (bind_Ok _ _ _ _ _ (invoke_nil n op σ)).
    by rewrite (bind_Ok _ _ _ _ _ IH). }
  split; [done|]. by rewrite !(bind_Ok _ _ _ _ _ Hall).
Qed.

(** C8. NewCounter() returns a NilCounter, and leaves the store alone,
    when UseNilMetrics is set.  Otherwise it returns a pointer to a
    StandardCounter that did not exist before, whose Count() is 0 and
    whose GetTags() is nil; no other counter, snapshot or map changes. *)
Theorem NewCounter_spec (σ : Store) :
  if UseNilMetrics σ then NewCounter σ = Ok (INil mkNilCounter) σ
  else ∃ p σ',
    NewCounter σ = Ok (IStandard p) σ' ∧
    standards σ !! addr p = None ∧
    standards σ' = <[addr p := mkStandardCounter 0 None]> (standards σ) ∧
    StandardCounter_Count p σ' = Ok 0 σ' ∧
    StandardCounter_GetTags p σ' = Ok None σ' ∧
    entries σ' None = ∅ ∧
    maps σ' = maps σ ∧ snapshots σ' = snapshots σ ∧
    UseNilMetrics σ' = UseNilMetrics σ.
Proof.
  destruct (UseNilMetrics σ) eqn:Hflag.
  - unfold NewCounter. by rewrite Hflag.
  - rewrite (NewCounter_standard _ Hflag). simpl.
    set (p := Ptr (fresh (dom (standards σ)))).
    exists p, (with_std σ p (mkStandardCounter 0 None)).
    split; [done|]. split.
    { apply not_elem_of_dom. apply is_fresh. }
    split; [done|]. split.
    { by rewrite (Count_Ok _ _ _ (with_std_lookup _ _ _)). }
    split; [|done].
    by rewrite (GetTags_run _ _ _ (with_std_lookup _ _ _)).
Qed.

(* ===================================================================== *)
(** * Tags *)
(* ===================================================================== *)

Lemma AddTags_merge_entries σ p c tags l :
  standards σ !! addr p = Some c → std_tags c = Some l →
  ∃ σ', StandardCounter_AddTags p tags σ = Ok tt σ' ∧
        standards σ' = standards σ ∧
        snapshots σ' = snapshots σ ∧
        entries σ' (Some l) = entries σ tags ∪ entries σ (Some l) ∧
        ∀ l', l' ≠ l → maps σ' !! l' = maps σ !! l'.
Proof.
  intros Hc Hl. eexists. split; [by apply AddTags_merge_run with c|].
  split; [apply assign_at_standards|]. split; [apply assign_at_snapshots|]. split.
  - by rewrite assign_at_entries, assign_list_map_to_list.
  - intros l' Hne. by apply assign_at_maps_ne.
Qed.

(** C4. AddTags(tags) on a StandardCounter always returns.  If the
    counter's tags field is nil, the field becomes the argument itself:
    GetTags() returns the very reference passed in and no map object is
    created or changed.  Otherwise the field keeps its reference, and the
    map it refers to holds afterwards every pair of the argument, and for
    the keys the argument lacks what it held before; no other map
    changes.  In particular on a counter without tags,
    AddTags({a:1}) then AddTags({a:2, b:3}) leaves GetTags() with exactly
    {a:2, b:3}. *)
Theorem AddTags_merges (σ : Store) (p : ptr StandardCounter) (c : StandardCounter)
    (tags : tags_t) :
  standards σ !! addr p = Some c →
  (∃ σ', StandardCounter_AddTags p tags σ = Ok tt σ' ∧
     match std_tags c with
     | None =>
         StandardCounter_GetTags p σ' = Ok tags σ' ∧ maps σ' = maps σ
     | Some l =>
         StandardCounter_GetTags p σ' = Ok (Some l) σ' ∧
         entries σ' (Some l) = entries σ tags ∪ entries σ (Some l) ∧
         (∀ k v, entries σ tags !! k = Some v → entries σ' (Some l) !! k = Some v) ∧
         (∀ k, entries σ tags !! k = None →
               entries σ' (Some l) !! k = entries σ (Some l) !! k) ∧
         (∀ l', l' ≠ l → maps σ' !! l' = maps σ !! l')
     end) ∧
  (∀ t1 t2 : tags_t,
     std_tags c = None →
     entries σ t1 = {[ "a" := "1" ]} →
     entries σ t2 = {[ "a" := "2"; "b" := "3" ]} →
     ∃ t σ', (StandardCounter_AddTags p t1 ;;;
              StandardCounter_AddTags p t2 ;;;
              StandardCounter_GetTags p) σ = Ok t σ' ∧
             entries σ' t = {[ "a" := "2"; "b" := "3" ]}).
Proof.
  intros Hc. split.
  - destruct (std_tags c) as [l|] eqn:Hl.
    + destruct (AddTags_merge_entries σ p c tags l Hc Hl)
        as (σ' & Hrun & Hstd & _ & Hent & Hframe).
      exists σ'. split; [done|].
      assert (Hc' : standards σ' !! addr p = Some c) by by rewrite Hstd.
      split; [by rewrite (GetTags_run _ _ _ Hc'), Hl|].
      split; [done|]. rewrite Hent. split; [|split; [|done]].
      * intros k v Hk. by apply lookup_union_Some_l.
      * intros k Hk. by apply lookup_union_r.
    + eexists. split; [by apply AddTags_nil_run|]. split; [|done].
      by rewrite (GetTags_run _ _ _ (with_std_lookup _ _ _)).
  - intros t1 t2 Hnil H1 H2.
    destruct t1 as [l1|]; [|by apply (f_equal size) in H1].
    set (c1 := mkStandardCounter (std_count c) (Some l1)).
    set (σ1 := with_std σ p c1).
    assert (Hc1 : standards σ1 !! addr p = Some c1) by apply with_std_lookup.
    destruct (AddTags_merge_entries σ1 p c1 t2 l1 Hc1 eq_refl)
      as (σ2 & Hrun & Hstd & _ & Hent & _).
    exists (Some l1), σ2. split.
    + rewrite (bind_Ok _ _ _ _ _ (AddTags_nil_run _ _ _ Hc _ Hnil)).
      fold c1 σ1. rewrite (bind_Ok _ _ _ _ _ Hrun).
      apply (GetTags_run _ _ c1). by rewrite Hstd.
    + rewrite Hent.
      replace (entries σ1 t2) with (entries σ t2) by by destruct t2.
      replace (entries σ1 (Some l1)) with (entries σ (Some l1)) by done.
      rewrite H1, H2. by vm_compute.
Qed.

Lemma AddTags_merges_witness :
  ∃ t σ',
    (StandardCounter_AddTags (Ptr 1%positive) (Some 1%positive) ;;;
     StandardCounter_AddTags (Ptr 1%positive) (Some 2%positive) ;;;
     StandardCounter_GetTags (Ptr 1%positive)) two_maps_store
    = Ok t σ' ∧
    entries σ' t = {[ "a" := "2"; "b" := "3" ]}.
Proof.
  refine (proj2 (AddTags_merges two_maps_store (Ptr 1%positive)
                   (mkStandardCounter 0 None) None _)
            (Some 1%positive) (Some 2%positive) _ _ _);
    reflexivity.
Defined.

(* ===================================================================== *)
(** * What one call on a live StandardCounter leaves alone *)
(* ===================================================================== *)

Lemma fresh_lookup_ne {A} (m : gmap positive A) l :
  is_Some (m !! l) → l ≠ fresh (dom m).
Proof.
  intros Hl ->. apply elem_of_dom in Hl. by apply (is_fresh (dom m)).
Qed.

Lemma invoke_standard σ p c op :
  standards σ !! addr p = Some c →
  ∃ r σ' c',
    invoke (IStandard p) op σ = Ok r σ' ∧
    standards σ' !! addr p = Some c' ∧
    call_frame σ σ' c c' ∧
    call_keeps op σ σ' c c'.
Proof.
  intros Hc. unfold call_frame. destruct op as [| |i|i| |tags|]; simpl.
  - (* Clear *)
    rewrite (bind_Ok _ _ _ _ _ (Clear_run _ _ _ Hc)).
    do 3 eexists. split; [done|]. split; [apply with_std_lookup|]. done.
  - (* Count *)
    rewrite (bind_Ok _ _ _ _ _ (Count_Ok _ _ _ Hc)).
    do 3 eexists. split; [done|]. split; [exact Hc|]. done.
  - (* Dec *)
    rewrite (bind_Ok _ _ _ _ _ (Dec_run _ _ _ Hc i)).
    do 3 eexists. split; [done|]. split; [apply with_std_lookup|]. done.
  - (* Inc *)
    rewrite (bind_Ok _ _ _ _ _ (Inc_run _ _ _ Hc i)).
    do 3 eexists. split; [done|]. split; [apply with_std_lookup|]. done.
  - (* Snapshot *)
    destruct (decide (entries σ (std_tags c) = ∅)) as [He|He].
    + rewrite (bind_Ok _ _ _ _ _ (Snapshot_empty_run _ _ _ Hc He)).
      do 3 eexists. split; [done|]. split; [exact Hc|].
      split; [|done]. repeat split; try done.
      intros l Hl. simpl. apply lookup_insert_ne. symmetry. by apply fresh_lookup_ne.
    + rewrite (bind_Ok _ _ _ _ _ (Snapshot_copy_run _ _ _ Hc He)).
      set (l' := fresh (dom (maps σ))).
      set (kvs := map_to_list (entries σ (std_tags c))).
      assert (Hmaps : ∀ l, is_Some (maps σ !! l) →
                maps (assign_at l' kvs (set_maps (insert l' ∅) σ)) !! l = maps σ !! l).
      { intros l Hl. pose proof (fresh_lookup_ne _ _ Hl) as Hne.
        rewrite assign_at_maps_ne by done. simpl. by apply lookup_insert_ne. }
      do 3 eexists. split; [done|]. split.
      { simpl. rewrite assign_at_standards. exact Hc. }
      split.
      * split; [simpl; by rewrite assign_at_flag|].
        split; [intros l Hl _; by apply Hmaps|].
        split; [intros l Hl; simpl; by rewrite Hmaps|].
        split; [|done]. intros l Hl. simpl. rewrite assign_at_snapshots. simpl.
        apply lookup_insert_ne. symmetry. by apply fresh_lookup_ne.
      * split; [done|]. destruct (std_tags c) as [l|]; [|done].
        simpl in *. rewrite Hmaps; [done|].
        destruct (maps σ !! l); [done|]. by destruct He.
  - (* AddTags *)
    destruct (std_tags c) as [l|] eqn:Hl.
    + destruct (AddTags_merge_entries σ p c tags l Hc Hl)
        as (σ' & Hrun & Hstd & Hsnap & Hent & Hframe).
      rewrite (bind_Ok _ _ _ _ _ Hrun).
      exists RNone, σ', c. split; [done|]. split; [by rewrite Hstd|].
      split; [|done].
      split. { rewrite (AddTags_merge_run _ _ _ Hc _ _ Hl) in Hrun.
               injection Hrun as <-. apply assign_at_flag. }
      split. { intros l0 _ Hne. apply Hframe. congruence. }
      split. { intros l0 Hl0. destruct (decide (l0 = l)) as [->|Hne].
               - rewrite (AddTags_merge_run _ _ _ Hc _ _ Hl) in Hrun.
                 injection Hrun as <-.
                 destruct (map_to_list (entries σ tags)) as [|kv kvs]; [done|].
                 rewrite assign_at_cons. simpl. by rewrite lookup_insert_eq.
               - by rewrite Hframe. }
      split; [|done]. intros l0 _. by rewrite Hsnap.
    + rewrite (bind_Ok _ _ _ _ _ (AddTags_nil_run _ _ _ Hc tags Hl)).
      do 3 eexists. split; [done|]. split; [apply with_std_lookup|]. done.
  - (* GetTags *)
    rewrite (bind_Ok _ _ _ _ _ (GetTags_run _ _ _ Hc)).
    do 3 eexists. split; [done|]. split; [exact Hc|]. done.
Qed.

(** C10. A call on a live StandardCounter returns, and touches only the
    field it is about: Count(), GetTags() and Snapshot() leave the count,
    the tags reference and the entries of the tag map as they were;
    Clear(), Inc(n) and Dec(n) leave the tags reference and the entries as
    they were; AddTags(tags) leaves the count as it was. *)
Theorem StandardCounter_frame (σ : Store) (p : ptr StandardCounter)
    (c : StandardCounter) (op : call) :
  standards σ !! addr p = Some c →
  ∃ r σ' c',
    invoke (IStandard p) op σ = Ok r σ' ∧
    standards σ' !! addr p = Some c' ∧
    match op with
    | CallCount | CallGetTags | CallSnapshot =>
        std_count c' = std_count c ∧
        std_tags c' = std_tags c ∧
        entries σ' (std_tags c') = entries σ (std_tags c)
    | CallClear | CallDec _ | CallInc _ =>
        std_tags c' = std_tags c ∧
        entries σ' (std_tags c') = entries σ (std_tags c)
    | CallAddTags _ =>
        std_count c' = std_count c
    end.
Proof.
  intros Hc.
  destruct (invoke_standard σ p c op Hc) as (r & σ' & c' & Hrun & Hc' & _ & Hkeep).
  exists r, σ', c'. split; [done|]. split; [done|].
  destruct op; simpl in Hkeep.
  - destruct Hkeep as [Ht Hm]. split; [done|]. rewrite Ht.
    destruct (std_tags c); simpl; by rewrite ?Hm.
  - by destruct Hkeep as [-> ->].
  - destruct Hkeep as [Ht Hm]. split; [done|]. rewrite Ht.
    destruct (std_tags c); simpl; by rewrite ?Hm.
  - destruct Hkeep as [Ht Hm]. split; [done|]. rewrite Ht.
    destruct (std_tags c); simpl; by rewrite ?Hm.
  - by destruct Hkeep as [-> ?].
  - done.
  - by destruct Hkeep as [-> ->].
Qed.

Lemma StandardCounter_frame_witness :
  ∃ r σ' c',
    invoke (IStandard (Ptr 1%positive)) (CallInc 5) two_maps_store = Ok r σ' ∧
    standards σ' !! 1%positive = Some c' ∧
    std_tags c' = None ∧
    entries σ' (std_tags c') = ∅.
Proof.
  apply (StandardCounter_frame two_maps_store (Ptr 1%positive)
           (mkStandardCounter 0 None) (CallInc 5)).
  reflexivity.
Defined.

(* ===================================================================== *)
(** * Failure *)
(* ===================================================================== *)

(** C3. On any store, Clear(), Inc(x), Dec(x) and AddTags(t) on a
    CounterSnapshot panic, with the method's own misuse message, whatever
    the argument.  Every other call on a live receiver (all seven methods
    of NilCounter and of StandardCounter; Count, Snapshot and GetTags of
    CounterSnapshot) returns.  So a call panics exactly when it is a
    mutating call on a snapshot. *)
Theorem misuse_is_the_only_failure (σ : Store) (c : Counter) (op : call) :
  live σ c →
  (if is_snapshot c && is_mutator op
   then invoke c op σ = Panic (misuse_message op)
   else succeeds (invoke c op σ)) ∧
  (panics (invoke c op σ) ↔ is_snapshot c = true ∧ is_mutator op = true).
Proof.
  intros Hlive.
  assert (Hmain : if is_snapshot c && is_mutator op
                  then invoke c op σ = Panic (misuse_message op)
                  else succeeds (invoke c op σ)).
  { destruct c as [n|q|p]; cbn [is_snapshot andb live] in *.
    - rewrite invoke_nil. by do 2 eexists.
    - destruct Hlive as [s Hs].
      destruct op; cbn [is_mutator]; try done; unfold succeeds.
      + change (invoke (ISnapshot q) CallCount σ)
          with ((v <~ CounterSnapshot_Count q ;; ret (RInt64 v)) σ).
        rewrite (bind_Ok _ _ _ _ _ (CounterSnapshot_Count_Ok _ _ _ Hs)).
        by do 2 eexists.
      + by do 2 eexists.
      + change (invoke (ISnapshot q) CallGetTags σ)
          with ((t <~ CounterSnapshot_GetTags q ;; ret (RTags t)) σ).
        rewrite (bind_Ok _ _ _ _ _ (CounterSnapshot_GetTags_Ok _ _ _ Hs)).
        by do 2 eexists.
    - destruct Hlive as [c Hc].
      destruct (invoke_standard σ p c op Hc) as (r & σ' & _ & Hrun & _).
      by exists r, σ'. }
  split; [done|].
  destruct (is_snapshot c && is_mutator op) eqn:Hb.
  - apply andb_true_iff in Hb. split; [done|]. intros _. by eexists.
  - split.
    + intros [msg Hp]. destruct Hmain as (a & σ' & Hok). congruence.
    + intros [H1 H2]. by rewrite H1, H2 in Hb.
Qed.

Lemma misuse_is_the_only_failure_witness :
  invoke (ISnapshot (Ptr 1%positive)) (CallInc 1)
    (mkStore false ∅ {[ 1%positive := mkCounterSnapshot 7 None ]} ∅)
  = Panic "Inc called on a CounterSnapshot".
Proof.
  refine (proj1 (misuse_is_the_only_failure
                   (mkStore false ∅ {[ 1%positive := mkCounterSnapshot 7 None ]} ∅)
                   (ISnapshot (Ptr 1%positive)) (CallInc 1) _)).
  simpl. by eexists.
Defined.

(* ===================================================================== *)
(** * Independence of a snapshot from its counter *)
(* ===================================================================== *)

Lemma entries_nonempty_live σ (t : tags_t) :
  entries σ t ≠ ∅ → ∃ l, t = Some l ∧ is_Some (maps σ !! l).
Proof.
  destruct t as [l|]; [|done]. simpl. intros He. exists l. split; [done|].
  destruct (maps σ !! l); [by eexists|done].
Qed.

(** Taking the snapshot establishes [separate]. *)
Lemma Snapshot_separate σ p c :
  standards σ !! addr p = Some c →
  ∃ q s σ1,
    StandardCounter_Snapshot p σ = Ok (ISnapshot q) σ1 ∧
    snapshots σ !! addr q = None ∧
    snap_count s = std_count c ∧
    separate σ1 p q s ∧
    entries σ1 (snap_tags s) = entries σ (std_tags c) ∧
    (entries σ (std_tags c) = ∅ → snap_tags s = None) ∧
    (∀ l, snap_tags s = Some l → maps σ !! l = None ∧ std_tags c ≠ Some l).
Proof.
  intros Hc.
  assert (Hq : snapshots σ !! fresh (dom (snapshots σ)) = None).
  { apply not_elem_of_dom, is_fresh. }
  destruct (decide (entries σ (std_tags c) = ∅)) as [He|He].
  - rewrite (Snapshot_empty_run _ _ _ Hc He). simpl.
    eexists (Ptr _), (mkCounterSnapshot _ None), _.
    split; [done|]. split; [exact Hq|]. split; [done|]. split.
    { split; [apply lookup_insert_eq|]. exists c. by split. }
    by rewrite He.
  - rewrite (Snapshot_copy_run _ _ _ Hc He). simpl.
    set (l' := fresh (dom (maps σ))).
    set (kvs := map_to_list (entries σ (std_tags c))).
    set (σ0 := set_maps (insert l' ∅) σ).
    assert (Hl' : maps σ !! l' = None) by apply not_elem_of_dom, is_fresh.
    destruct (entries_nonempty_live _ _ He) as (l0 & Hl0 & Hlive0).
    assert (Hne : l0 ≠ l') by by apply fresh_lookup_ne.
    eexists (Ptr _), (mkCounterSnapshot _ (Some l')), _.
    split; [done|]. split; [exact Hq|]. split; [done|]. split; [|split; [|split]].
    + split; [apply lookup_insert_eq|]. exists c. split.
      { simpl. by rewrite assign_at_standards. }
      intros l [= <-]. split; [|by exists l0].
      simpl. destruct kvs as [|kv kvs'].
      * simpl. rewrite lookup_insert_eq. by eexists.
      * rewrite assign_at_cons. simpl. rewrite lookup_insert_eq. by eexists.
    + change (entries (assign_at l' kvs σ0) (Some l') = entries σ (std_tags c)).
      rewrite assign_at_entries. unfold σ0. rewrite entries_insert_eq.
      unfold kvs. rewrite assign_list_map_to_list. apply (right_id_L ∅ (∪)).
    + done.
    + intros l [= <-]. split; [done|]. congruence.
Qed.

(** Every call on the counter preserves [separate] and the entries the
    snapshot refers to. *)
Lemma separate_step σ p q s op :
  separate σ p q s →
  ∃ r σ', invoke (IStandard p) op σ = Ok r σ' ∧
          separate σ' p q s ∧
          entries σ' (snap_tags s) = entries σ (snap_tags s).
Proof.
  intros (Hs & c & Hc & Hsep).
  destruct (invoke_standard σ p c op Hc)
    as (r & σ' & c' & Hrun & Hc' & (_ & Hmaps & Hlive & Hsnaps & Htags) & _).
  exists r, σ'. split; [done|]. split.
  - split; [rewrite Hsnaps; [done|by eexists]|].
    exists c'. split; [done|]. intros l Hl.
    destruct (Hsep l Hl) as (Hm & l0 & Hl0 & Hne).
    split; [by apply Hlive|]. exists l0. split; [|done].
    rewrite Htags; [done|]. by rewrite Hl0.
  - destruct (snap_tags s) as [l|]; [|done].
    destruct (Hsep l eq_refl) as (Hm & l0 & Hl0 & Hne).
    simpl. rewrite Hmaps; [done|done|]. rewrite Hl0. congruence.
Qed.

Lemma separate_run σ p q s ops :
  separate σ p q s →
  ∃ rs σ', invoke_all (IStandard p) ops σ = Ok rs σ' ∧
           separate σ' p q s ∧
           entries σ' (snap_tags s) = entries σ (snap_tags s).
Proof.
  revert σ. induction ops as [|op ops IH]; intros σ Hsep.
  - by exists [], σ.
  - destruct (separate_step σ p q s op Hsep) as (r & σ1 & Hrun1 & Hsep1 & Hent1).
    destruct (IH σ1 Hsep1) as (rs & σ2 & Hrun2 & Hsep2 & Hent2).
    exists (r :: rs), σ2. split; [|split; [done|congruence]].
    cbn [invoke_all]. rewrite (bind_Ok _ _ _ _ _ Hrun1).
    by rewrite (bind_Ok _ _ _ _ _ Hrun2).
Qed.

(** C2. Snapshot() on a live StandardCounter holding count V and tags T
    returns a pointer to a CounterSnapshot that did not exist before.
    Its Count() is V.  Its GetTags() is nil when T has no entries, and
    otherwise refers to a map object that did not exist before and is not
    the counter's, holding exactly the entries of T.  After any further
    calls on the counter (Inc, Dec, Clear, AddTags with any argument, and
    also Count, GetTags, Snapshot), all of which return, the snapshot's
    Count() is still V and its GetTags() still the same reference with
    the same entries. *)
Theorem Snapshot_independent (σ : Store) (p : ptr StandardCounter)
    (c : StandardCounter) :
  standards σ !! addr p = Some c →
  ∃ q t σ1,
    StandardCounter_Snapshot p σ = Ok (ISnapshot q) σ1 ∧
    snapshots σ !! addr q = None ∧
    CounterSnapshot_Count q σ1 = Ok (std_count c) σ1 ∧
    CounterSnapshot_GetTags q σ1 = Ok t σ1 ∧
    entries σ1 t = entries σ (std_tags c) ∧
    (entries σ (std_tags c) = ∅ → t = None) ∧
    (∀ l, t = Some l → maps σ !! l = None ∧ std_tags c ≠ Some l) ∧
    ∀ ops, ∃ rs σ2,
      invoke_all (IStandard p) ops σ1 = Ok rs σ2 ∧
      CounterSnapshot_Count q σ2 = Ok (std_count c) σ2 ∧
      CounterSnapshot_GetTags q σ2 = Ok t σ2 ∧
      entries σ2 t = entries σ (std_tags c).
Proof.
  intros Hc.
  destruct (Snapshot_separate σ p c Hc)
    as (q & s & σ1 & Hrun & Hnew & Hcount & Hsep & Hent & Hnil & Hfresh).
  exists q, (snap_tags s), σ1.
  pose proof Hsep as (Hs & _).
  split; [done|]. split; [done|].
  split; [by rewrite (CounterSnapshot_Count_Ok _ _ _ Hs), Hcount|].
  split; [by rewrite (CounterSnapshot_GetTags_Ok _ _ _ Hs)|].
  split; [done|]. split; [done|]. split; [done|].
  intros ops.
  destruct (separate_run σ1 p q s ops Hsep) as (rs & σ2 & Hrun2 & (Hs2 & _) & Hent2).
  exists rs, σ2. split; [done|].
  split; [by rewrite (CounterSnapshot_Count_Ok _ _ _ Hs2), Hcount|].
  split; [by rewrite (CounterSnapshot_GetTags_Ok _ _ _ Hs2)|].
  congruence.
Qed.

Lemma Snapshot_independent_witness :
  ∃ q t σ1,
    StandardCounter_Snapshot (Ptr 1%positive) tagged_store = Ok (ISnapshot q) σ1 ∧
    snapshots tagged_store !! addr q = None ∧
    CounterSnapshot_Count q σ1 = Ok 9 σ1 ∧
    CounterSnapshot_GetTags q σ1 = Ok t σ1 ∧
    entries σ1 t = entries tagged_store (Some 2%positive) ∧
    (entries tagged_store (Some 2%positive) = ∅ → t = None) ∧
    (∀ l, t = Some l → maps tagged_store !! l = None ∧ Some 2%positive ≠ Some l) ∧
    ∀ ops, ∃ rs σ2,
      invoke_all (IStandard (Ptr 1%positive)) ops σ1 = Ok rs σ2 ∧
      CounterSnapshot_Count q σ2 = Ok 9 σ2 ∧
      CounterSnapshot_GetTags q σ2 = Ok t σ2 ∧
      entries σ2 t = entries tagged_store (Some 2%positive).
Proof.
  apply (Snapshot_independent tagged_store (Ptr 1%positive)
           (mkStandardCounter 9 (Some 2%positive))).
  reflexivity.
Defined.

(* ===================================================================== *)
(** * Runs on concrete stores *)
(* ===================================================================== *)

Example add64_wraps : add64 max_int64 1 = min_int64.
Proof. reflexivity. Qed.

(** [c := NewCounter(); c.AddTags({a:1}); c.AddTags({a:2, b:3}); c.GetTags()] *)
Example tags_program :
  match (c <~ NewCounter ;;
         t1 <~ map_literal [("a", "1")] ;;
         invoke c (CallAddTags t1) ;;;
         t2 <~ map_literal [("a", "2"); ("b", "3")] ;;
         invoke c (CallAddTags t2) ;;;
         r <~ invoke c CallGetTags ;;
         ret (r, t1)) (empty_store false) with
  | Ok (RTags t, t1) σ => t = t1 ∧ entries σ t = {[ "a" := "2"; "b" := "3" ]}
  | _ => False
  end.
Proof. by vm_compute. Qed.

(** Adoption is by reference: two counters that were handed the same map
    see each other's later tags. *)
Example adoption_shares_the_map :
  match (c <~ NewCounter ;;
         d <~ NewCounter ;;
         m <~ map_literal [("a", "1")] ;;
         invoke c (CallAddTags m) ;;;
         invoke d (CallAddTags m) ;;;
         x <~ map_literal [("b", "3")] ;;
         invoke d (CallAddTags x) ;;;
         invoke c CallGetTags) (empty_store false) with
  | Ok (RTags t) σ => entries σ t = {[ "a" := "1"; "b" := "3" ]}
  | _ => False
  end.
Proof. by vm_compute. Qed.

(** [s := c.Snapshot()] then [c.AddTags({a:9}); c.Inc(5); c.Clear()]:
    the snapshot still reports what it captured. *)
Example snapshot_program :
  match (s <~ invoke (IStandard (Ptr 1%positive)) CallSnapshot ;;
         x <~ map_literal [("a", "9")] ;;
         invoke_all (IStandard (Ptr 1%positive))
           [CallAddTags x; CallInc 5; CallClear] ;;;
         live_tags <~ StandardCounter_GetTags (Ptr 1%positive) ;;
         match s with
         | RCounter snap =>
             n <~ invoke snap CallCount ;;
             t <~ invoke snap CallGetTags ;;
             ret (n, t, live_tags)
         | _ => panic "not a counter"
         end) tagged_store with
  | Ok (RInt64 n, RTags t, live_tags) σ =>
      n = 9 ∧ entries σ t = {[ "a" := "2"; "b" := "3" ]} ∧
      entries σ live_tags = {[ "a" := "9"; "b" := "3" ]}
  | _ => False
  end.
Proof. by vm_compute. Qed.

(* ===================================================================== *)
(** * Further properties: counting *)
(* ===================================================================== *)

Lemma with_std_twice σ p c1 c2 : with_std (with_std σ p c1) p c2 = with_std σ p c2.
Proof. unfold with_std, set_standards. simpl. by rewrite insert_insert_eq. Qed.

Lemma with_std_same σ p c : standards σ !! addr p = Some c → with_std σ p c = σ.
Proof.
  intros Hc. destruct σ as [f m sn st]. unfold with_std, set_standards. simpl in *.
  by rewrite insert_id.
Qed.

(** The store a sequence of updates leaves, in closed form. *)
Lemma updates_store p us : ∀ σ c,
  standards σ !! addr p = Some c →
  for_each us (apply_update p) σ =
  Ok tt (match us with
         | [] => σ
         | _ :: _ =>
             with_std σ p
               (mkStandardCounter
                  (wrap64 (std_count c + (sum_incs us - sum_decs us)))
                  (std_tags c))
         end).
Proof.
  induction us as [|u us IH]; intros σ c Hc; [done|].
  assert (Hstep : ∃ d, apply_update p u σ
                       = Ok tt (with_std σ p
                                  (mkStandardCounter (wrap64 (std_count c + d)) (std_tags c)))
                       ∧ ∀ z, d + (sum_incs us - sum_decs us) + z
                              = sum_incs (u :: us) - sum_decs (u :: us) + z).
  { destruct u as [a|b].
    - exists a. split; [by apply Inc_run|]. intros z. simpl. lia.
    - exists (- b). split; [|intros z; simpl; lia].
      simpl. rewrite (Dec_run _ _ _ Hc b), add64_neg64. do 4 f_equal. }
  destruct Hstep as (d & Hrun & Hsum).
  cbn [for_each]. rewrite (bind_Ok _ _ _ _ _ Hrun).
  rewrite (IH _ _ (with_std_lookup _ _ _)). f_equal.
  destruct us as [|u' us'].
  - do 3 f_equal. specialize (Hsum 0). simpl in *. lia.
  - rewrite with_std_twice. cbn [std_count std_tags].
    rewrite wrap64_add_l. do 3 f_equal. specialize (Hsum 0). lia.
Qed.

Lemma sums_Permutation us us' :
  us ≡ₚ us' → sum_incs us = sum_incs us' ∧ sum_decs us = sum_decs us'.
Proof.
  induction 1 as [|u us us' _ [IHi IHd]|u v us|us1 us2 us3 _ [? ?] _ [? ?]].
  - done.
  - destruct u; simpl; by rewrite IHi, IHd.
  - destruct u, v; simpl; split; lia.
  - split; congruence.
Qed.

(** The store after a sequence of Inc and Dec calls on a live counter does
    not depend on the order of the calls. *)
Theorem updates_order_irrelevant (σ : Store) (p : ptr StandardCounter)
    (us us' : list update) :
  is_Some (standards σ !! addr p) →
  us ≡ₚ us' →
  for_each us (apply_update p) σ = for_each us' (apply_update p) σ.
Proof.
  intros [c Hc] Hperm.
  rewrite (updates_store p us σ c Hc), (updates_store p us' σ c Hc).
  destruct (sums_Permutation us us' Hperm) as [Hi Hd].
  destruct us as [|u us0], us' as [|u' us0'].
  - done.
  - by apply Permutation_nil_cons in Hperm.
  - symmetry in Hperm. by apply Permutation_nil_cons in Hperm.
  - by rewrite Hi, Hd.
Qed.

Lemma updates_order_irrelevant_witness :
  for_each [UInc 3; UDec 5; UInc max_int64] (apply_update (Ptr 1%positive)) tagged_store
  = for_each [UInc max_int64; UInc 3; UDec 5] (apply_update (Ptr 1%positive)) tagged_store.
Proof.
  apply updates_order_irrelevant.
  - by eexists.
  - symmetry. apply (Permutation_cons_append [UInc 3; UDec 5] (UInc max_int64)).
Defined.

(** On a live counter whose count is an int64, Inc(i) followed by Dec(i),
    and Dec(i) followed by Inc(i), give back the very store they started
    from, for every i (also when the intermediate count wraps). *)
Theorem Inc_Dec_cancel (σ : Store) (p : ptr StandardCounter) (c : StandardCounter)
    (i : Z) :
  standards σ !! addr p = Some c →
  is_int64 (std_count c) →
  (StandardCounter_Inc p i ;;; StandardCounter_Dec p i) σ = Ok tt σ ∧
  (StandardCounter_Dec p i ;;; StandardCounter_Inc p i) σ = Ok tt σ.
Proof.
  intros Hc Hrange.
  assert (Hback : ∀ v, wrap64 v = std_count c →
            with_std σ p (mkStandardCounter (wrap64 v) (std_tags c)) = σ).
  { intros v ->. apply with_std_same. by destruct c. }
  split.
  - rewrite (bind_Ok _ _ _ _ _ (Inc_run _ _ _ Hc i)).
    rewrite (Dec_run _ _ _ (with_std_lookup _ _ _)), with_std_twice.
    cbn [std_count std_tags]. rewrite add64_neg64. unfold add64.
    rewrite <- Z.add_opp_r, wrap64_add_l. f_equal. apply Hback.
    rewrite <- (wrap64_id _ Hrange) at 2. f_equal. lia.
  - rewrite (bind_Ok _ _ _ _ _ (Dec_run _ _ _ Hc i)).
    rewrite (Inc_run _ _ _ (with_std_lookup _ _ _)), with_std_twice.
    cbn [std_count std_tags]. rewrite add64_neg64. unfold add64.
    rewrite wrap64_add_l. f_equal. apply Hback.
    rewrite <- (wrap64_id _ Hrange) at 2. f_equal. lia.
Qed.

Lemma Inc_Dec_cancel_witness :
  (StandardCounter_Inc (Ptr 1%positive) max_int64 ;;;
   StandardCounter_Dec (Ptr 1%positive) max_int64) tagged_store = Ok tt tagged_store ∧
  (StandardCounter_Dec (Ptr 1%positive) max_int64 ;;;
   StandardCounter_Inc (Ptr 1%positive) max_int64) tagged_store = Ok tt tagged_store.
Proof.
  apply (Inc_Dec_cancel tagged_store (Ptr 1%positive)
           (mkStandardCounter 9 (Some 2%positive))).
  - reflexivity.
  - unfold is_int64, min_int64, max_int64. simpl. lia.
Defined.

Lemma wrap64_cases (z : Z) :
  min_int64 - 2 ^ 64 ≤ z ≤ max_int64 + 2 ^ 64 →
  wrap64 z = if decide (max_int64 < z) then z - 2 ^ 64
             else if decide (z < min_int64) then z + 2 ^ 64
             else z.
Proof.
  unfold wrap64, min_int64, max_int64.
  change (2 ^ 64) with 18446744073709551616.
  change (2 ^ 63) with 9223372036854775808.
  intros Hz. repeat case_decide; Z.div_mod_to_equations; lia.
Qed.

(** Inc(i) neither saturates nor fails at the int64 bounds.  With count
    and amount both int64, the count read back is the exact sum when that
    is an int64, the sum less 2^64 when it exceeds the largest int64, and
    the sum plus 2^64 when it is below the least. *)
Theorem Inc_overflow (σ : Store) (p : ptr StandardCounter) (c : StandardCounter)
    (i : Z) :
  standards σ !! addr p = Some c →
  is_int64 (std_count c) →
  is_int64 i →
  ∃ σ',
    (StandardCounter_Inc p i ;;; StandardCounter_Count p) σ =
    Ok (if decide (max_int64 < std_count c + i) then std_count c + i - 2 ^ 64
        else if decide (std_count c + i < min_int64) then std_count c + i + 2 ^ 64
        else std_count c + i) σ'.
Proof.
  intros Hc Hv Hi. eexists.
  rewrite (bind_Ok _ _ _ _ _ (Inc_run _ _ _ Hc i)).
  rewrite (Count_Ok _ _ _ (with_std_lookup _ _ _)). cbn [std_count].
  unfold add64. rewrite wrap64_cases; [done|].
  unfold is_int64, min_int64, max_int64 in *. lia.
Qed.

Lemma Inc_overflow_witness :
  ∃ σ',
    (StandardCounter_Inc (Ptr 1%positive) max_int64 ;;;
     StandardCounter_Count (Ptr 1%positive)) tagged_store =
    Ok (if decide (max_int64 < 9 + max_int64) then 9 + max_int64 - 2 ^ 64
        else if decide (9 + max_int64 < min_int64) then 9 + max_int64 + 2 ^ 64
        else 9 + max_int64) σ'.
Proof.
  apply (Inc_overflow tagged_store (Ptr 1%positive)
           (mkStandardCounter 9 (Some 2%positive)) max_int64).
  - reflexivity.
  - unfold is_int64, min_int64, max_int64. simpl. lia.
  - unfold is_int64, min_int64, max_int64. lia.
Defined.

(** Clear() forgets what came before it: after any sequence of Inc and
    Dec calls on a live counter, Clear() leaves exactly the store that
    Clear() alone would have left. *)
Theorem Clear_absorbs_updates (σ : Store) (p : ptr StandardCounter)
    (us : list update) :
  is_Some (standards σ !! addr p) →
  (for_each us (apply_update p) ;;; StandardCounter_Clear p) σ
  = StandardCounter_Clear p σ.
Proof.
  intros [c Hc].
  rewrite (bind_Ok _ _ _ _ _ (updates_store p us σ c Hc)).
  destruct us as [|u us]; [done|].
  rewrite (Clear_run _ _ _ (with_std_lookup _ _ _)), (Clear_run _ _ _ Hc).
  by rewrite with_std_twice.
Qed.

Lemma Clear_absorbs_updates_witness :
  (for_each [UInc 3; UDec 5] (apply_update (Ptr 1%positive)) ;;;
   StandardCounter_Clear (Ptr 1%positive)) tagged_store
  = StandardCounter_Clear (Ptr 1%positive) tagged_store.
Proof. apply Clear_absorbs_updates. by eexists. Defined.

(* ===================================================================== *)
(** * Further properties: what a call changes in the store *)
(* ===================================================================== *)

(** The structs after one call on a live StandardCounter: only the
    receiver's struct may differ, and at most one snapshot, holding the
    receiver's count, is added. *)
Lemma invoke_standard_shape σ p c op :
  standards σ !! addr p = Some c →
  ∃ r σ' c',
    invoke (IStandard p) op σ = Ok r σ' ∧
    standards σ' = <[addr p := c']> (standards σ) ∧
    (std_count c' = std_count c ∨ std_count c' = 0 ∨ ∃ d, std_count c' = wrap64 d) ∧
    (snapshots σ' = snapshots σ ∨
     ∃ q t, snapshots σ' = <[q := mkCounterSnapshot (std_count c) t]> (snapshots σ)) ∧
    (∀ v, r = RInt64 v → v = std_count c).
Proof.
  intros Hc.
  assert (Hid : standards σ = <[addr p := c]> (standards σ))
    by (symmetry; by apply insert_id).
  destruct op as [| |i|i| |tags|]; cbn [invoke method Clear Count Dec Inc Snapshot
    AddTags GetTags StandardCounter_Counter StandardCounter_Taggable].
  - rewrite (bind_Ok _ _ _ _ _ (Clear_run _ _ _ Hc)).
    do 3 eexists. split; [done|]. split; [done|]. split; [by right; left|].
    split; [by left|done].
  - rewrite (bind_Ok _ _ _ _ _ (Count_Ok _ _ _ Hc)).
    do 3 eexists. split; [done|]. split; [exact Hid|]. split; [by left|].
    split; [by left|]. by intros v [= <-].
  - rewrite (bind_Ok _ _ _ _ _ (Dec_run _ _ _ Hc i)).
    do 3 eexists. split; [done|]. split; [done|]. split; [right; right; by eexists|].
    split; [by left|done].
  - rewrite (bind_Ok _ _ _ _ _ (Inc_run _ _ _ Hc i)).
    do 3 eexists. split; [done|]. split; [done|]. split; [right; right; by eexists|].
    split; [by left|done].
  - destruct (decide (entries σ (std_tags c) = ∅)) as [He|He].
    + rewrite (bind_Ok _ _ _ _ _ (Snapshot_empty_run _ _ _ Hc He)).
      do 3 eexists. split; [done|]. split; [exact Hid|]. split; [by left|].
      split; [right; by do 2 eexists|done].
    + rewrite (bind_Ok _ _ _ _ _ (Snapshot_copy_run _ _ _ Hc He)).
      do 3 eexists. split; [done|]. split.
      { cbn [standards set_snapshots]. rewrite assign_at_standards. exact Hid. }
      split; [by left|]. split; [|done]. right.
      cbn [snapshots set_snapshots]. rewrite assign_at_snapshots. by do 2 eexists.
  - destruct (std_tags c) as [l|] eqn:Hl.
    + rewrite (bind_Ok _ _ _ _ _ (AddTags_merge_run _ _ _ Hc tags l Hl)).
      do 3 eexists. split; [done|]. split.
      { rewrite assign_at_standards. exact Hid. }
      split; [by left|]. split; [left; apply assign_at_snapshots|done].
    + rewrite (bind_Ok _ _ _ _ _ (AddTags_nil_run _ _ _ Hc tags Hl)).
      do 3 eexists. split; [done|]. split; [done|]. split; [by left|].
      split; [by left|done].
  - rewrite (bind_Ok _ _ _ _ _ (GetTags_run _ _ _ Hc)).
    do 3 eexists. split; [done|]. split; [exact Hid|]. split; [by left|].
    split; [by left|done].
Qed.

Lemma invoke_standard_dead σ p op :
  standards σ !! addr p = None → invoke (IStandard p) op σ = Panic nil_dereference.
Proof.
  intros Hp.
  destruct op; cbn [invoke method Clear Count Dec Inc Snapshot AddTags GetTags
    StandardCounter_Counter StandardCounter_Taggable];
    unfold StandardCounter_Clear, StandardCounter_Count, StandardCounter_Dec,
      StandardCounter_Inc, StandardCounter_Snapshot, StandardCounter_AddTags,
      StandardCounter_GetTags, atomic_StoreInt64, atomic_LoadInt64,
      atomic_AddInt64, load_std_tags, bind, load_std;
    by rewrite Hp.
Qed.

(** A call on a snapshot that returns has left the store as it was. *)
Lemma invoke_snapshot_store σ q op r σ' :
  invoke (ISnapshot q) op σ = Ok r σ' → σ' = σ.
Proof.
  destruct op; cbn; unfold bind, panic, ret, CounterSnapshot_Count,
    CounterSnapshot_GetTags, CounterSnapshot_Snapshot, bind, load_snap, ret;
    try done; repeat case_match; congruence.
Qed.

Lemma bind_Ok_inv {A B} (m : M A) (k : A → M B) σ b σ' :
  bind m k σ = Ok b σ' → ∃ a σ1, m σ = Ok a σ1 ∧ k a σ1 = Ok b σ'.
Proof. unfold bind. destruct (m σ) as [a σ1|msg]; [by exists a, σ1|done]. Qed.

Lemma invoke_all_standard_others σ p ops :
  is_Some (standards σ !! addr p) →
  ∃ rs σ', invoke_all (IStandard p) ops σ = Ok rs σ' ∧
           is_Some (standards σ' !! addr p) ∧
           ∀ l, l ≠ addr p → standards σ' !! l = standards σ !! l.
Proof.
  revert σ. induction ops as [|op ops IH]; intros σ [c Hc].
  - exists [], σ. by split; [|split; [eexists|]].
  - destruct (invoke_standard_shape σ p c op Hc) as (r & σ1 & c1 & Hrun & Hstd & _).
    assert (Hc1 : is_Some (standards σ1 !! addr p)).
    { rewrite Hstd, lookup_insert_eq. by eexists. }
    destruct (IH σ1 Hc1) as (rs & σ2 & Hrun2 & Hlive2 & Hothers).
    exists (r :: rs), σ2. split; [|split; [done|]].
    + cbn [invoke_all]. rewrite (bind_Ok _ _ _ _ _ Hrun).
      by rewrite (bind_Ok _ _ _ _ _ Hrun2).
    + intros l Hne. rewrite (Hothers l Hne), Hstd. by apply lookup_insert_ne.
Qed.

(** Counters do not interfere through their structs: whatever calls are
    made on a live StandardCounter, they all return, and the count and
    the tags reference of every other StandardCounter are what they were.
    (Two counters that were handed the same map still share its
    entries.) *)
Theorem calls_leave_other_counters (σ : Store) (p : ptr StandardCounter)
    (ops : list call) :
  is_Some (standards σ !! addr p) →
  ∃ rs σ', invoke_all (IStandard p) ops σ = Ok rs σ' ∧
           ∀ d : ptr StandardCounter, addr d ≠ addr p →
             standards σ' !! addr d = standards σ !! addr d.
Proof.
  intros Hp.
  destruct (invoke_all_standard_others σ p ops Hp) as (rs & σ' & Hrun & _ & Hothers).
  exists rs, σ'. split; [done|]. intros d Hne. by apply Hothers.
Qed.

Lemma calls_leave_other_counters_witness :
  ∃ rs σ',
    invoke_all (IStandard (Ptr 1%positive))
      [CallInc 7; CallAddTags (Some 1%positive); CallSnapshot; CallClear]
      two_counters_store = Ok rs σ' ∧
    ∀ d : ptr StandardCounter, addr d ≠ 1%positive →
      standards σ' !! addr d = standards two_counters_store !! addr d.
Proof.
  apply (calls_leave_other_counters two_counters_store (Ptr 1%positive)).
  by eexists.
Defined.

(** Two counters made by NewCounter (metrics enabled) are different
    objects, and no sequence of calls on the first changes what the
    second reports: its Count() stays 0 and its GetTags() stays nil. *)
Theorem NewCounter_twice_independent (σ : Store) :
  UseNilMetrics σ = false →
  ∃ p1 p2 σ2,
    (c1 <~ NewCounter ;; c2 <~ NewCounter ;; ret (c1, c2)) σ
    = Ok (IStandard p1, IStandard p2) σ2 ∧
    addr p1 ≠ addr p2 ∧
    ∀ ops, ∃ rs σ3,
      invoke_all (IStandard p1) ops σ2 = Ok rs σ3 ∧
      StandardCounter_Count p2 σ3 = Ok 0 σ3 ∧
      StandardCounter_GetTags p2 σ3 = Ok None σ3.
Proof.
  intros Hflag.
  rewrite (bind_Ok _ _ _ _ _ (NewCounter_standard _ Hflag)). cbn zeta.
  set (p1 := Ptr (fresh (dom (standards σ)))).
  set (σ1 := with_std σ p1 _).
  rewrite (bind_Ok _ _ _ _ _ (NewCounter_standard σ1 Hflag)). cbn zeta.
  set (p2 := Ptr (fresh (dom (standards σ1)))).
  set (σ2 := with_std σ1 p2 _).
  assert (Hne : addr p1 ≠ addr p2).
  { apply fresh_lookup_ne. eexists. apply with_std_lookup. }
  exists p1, p2, σ2. split; [done|]. split; [done|]. intros ops.
  assert (Hp1 : is_Some (standards σ2 !! addr p1)).
  { eexists. unfold σ2. cbn [standards with_std set_standards].
    rewrite lookup_insert_ne by done. apply with_std_lookup. }
  destruct (invoke_all_standard_others σ2 p1 ops Hp1) as (rs & σ3 & Hrun & _ & Hothers).
  assert (Hp2 : standards σ3 !! addr p2 = Some (mkStandardCounter 0 None)).
  { rewrite Hothers by done. apply with_std_lookup. }
  exists rs, σ3. split; [done|].
  by rewrite (Count_Ok _ _ _ Hp2), (GetTags_run _ _ _ Hp2).
Qed.

Lemma NewCounter_twice_independent_witness :
  ∃ p1 p2 σ2,
    (c1 <~ NewCounter ;; c2 <~ NewCounter ;; ret (c1, c2)) (empty_store false)
    = Ok (IStandard p1, IStandard p2) σ2 ∧
    addr p1 ≠ addr p2 ∧
    ∀ ops, ∃ rs σ3,
      invoke_all (IStandard p1) ops σ2 = Ok rs σ3 ∧
      StandardCounter_Count p2 σ3 = Ok 0 σ3 ∧
      StandardCounter_GetTags p2 σ3 = Ok None σ3.
Proof. apply (NewCounter_twice_independent (empty_store false)). reflexivity. Defined.

(** A CounterSnapshot is read-only through its methods: if a sequence of
    calls on a snapshot returns at all, it contained no Clear, Inc, Dec
    or AddTags, and the store is exactly as it was. *)
Theorem snapshot_calls_change_nothing (σ : Store) (q : ptr CounterSnapshot)
    (ops : list call) (rs : list retval) (σ' : Store) :
  invoke_all (ISnapshot q) ops σ = Ok rs σ' →
  σ' = σ ∧ Forall (λ op, is_mutator op = false) ops.
Proof.
  revert σ rs σ'. induction ops as [|op ops IH]; intros σ rs σ' Hrun.
  - cbn in Hrun. unfold ret in Hrun. by injection Hrun as _ <-.
  - cbn [invoke_all] in Hrun.
    apply bind_Ok_inv in Hrun as (r & σ1 & Hop & Hrest).
    apply bind_Ok_inv in Hrest as (rs' & σ2 & Hops & Hret).
    unfold ret in Hret. injection Hret as _ <-.
    pose proof (invoke_snapshot_store _ _ _ _ _ Hop) as ->.
    destruct (IH _ _ _ Hops) as [-> Hall].
    split; [done|]. constructor; [|done].
    destruct op; try done; by cbn in Hop.
Qed.

Lemma snapshot_calls_change_nothing_witness :
  mkStore false ∅ {[ 1%positive := mkCounterSnapshot 7 None ]} ∅
  = mkStore false ∅ {[ 1%positive := mkCounterSnapshot 7 None ]} ∅ ∧
  Forall (λ op, is_mutator op = false) [CallCount; CallSnapshot; CallGetTags].
Proof.
  apply (snapshot_calls_change_nothing _ (Ptr 1%positive) _
           [RInt64 7; RCounter (ISnapshot (Ptr 1%positive)); RTags None]).
  reflexivity.
Defined.

(** No call takes a count out of the int64 range.  If every count in the
    store is an int64, then after any call through the Counter interface
    that returns, and after NewCounter(), every count still is, and an
    int64 result of the call (that of Count()) is in range too. *)
Theorem counts_stay_int64 (σ : Store) :
  counts_int64 σ →
  (∀ c op r σ', invoke c op σ = Ok r σ' →
     counts_int64 σ' ∧ ∀ v, r = RInt64 v → is_int64 v) ∧
  (∀ c σ', NewCounter σ = Ok c σ' → counts_int64 σ').
Proof.
  intros [Hstd Hsnap]. split.
  - intros [n|q|p] op r σ' Hrun.
    + rewrite invoke_nil in Hrun. injection Hrun as <- <-.
      split; [done|]. intros v Hv. destruct op; try done.
      injection Hv as <-. unfold is_int64, min_int64, max_int64. lia.
    + pose proof (invoke_snapshot_store _ _ _ _ _ Hrun) as ->.
      split; [done|]. intros v ->.
      destruct op; cbn in Hrun; try done.
      * unfold CounterSnapshot_Count, bind, load_snap, ret in Hrun.
        destruct (snapshots σ !! addr q) as [s|] eqn:Hs; [|done].
        injection Hrun as <-. by apply (Hsnap _ _ Hs).
      * unfold CounterSnapshot_GetTags, bind, load_snap, ret in Hrun.
        by destruct (snapshots σ !! addr q).
    + destruct (standards σ !! addr p) as [c|] eqn:Hc;
        [|by rewrite invoke_standard_dead in Hrun].
      destruct (invoke_standard_shape σ p c op Hc)
        as (r0 & σ0 & c' & Hrun0 & Hstd' & Hcount & Hsnap' & Hres).
      rewrite Hrun0 in Hrun. injection Hrun as <- <-.
      pose proof (Hstd _ _ Hc) as Hrange. cbn beta in Hrange.
      split; [|intros v Hv; by rewrite (Hres v Hv)].
      split.
      * rewrite Hstd'. apply map_Forall_insert_2; [|done].
        destruct Hcount as [->|[->|[d ->]]]; [done| |apply wrap64_range].
        unfold is_int64, min_int64, max_int64. lia.
      * destruct Hsnap' as [->|(q & t & ->)]; [done|].
        by apply map_Forall_insert_2.
  - intros c σ'. unfold NewCounter.
    destruct (UseNilMetrics σ); [by intros [= _ <-]|].
    unfold bind, new_standard, ret. intros [= _ <-].
    split; [|done]. apply map_Forall_insert_2; [|done].
    unfold is_int64, min_int64, max_int64. simpl. lia.
Qed.

Lemma counts_stay_int64_witness :
  (∀ c op r σ', invoke c op tagged_store = Ok r σ' →
     counts_int64 σ' ∧ ∀ v, r = RInt64 v → is_int64 v) ∧
  (∀ c σ', NewCounter tagged_store = Ok c σ' → counts_int64 σ').
Proof.
  apply (counts_stay_int64 tagged_store). split.
  - apply map_Forall_singleton. unfold is_int64, min_int64, max_int64. simpl. lia.
  - apply map_Forall_empty.
Defined.

(* ===================================================================== *)
(** * Further properties: tags *)
(* ===================================================================== *)

(** AddTags with nothing to add changes nothing: with a nil argument
    always, and with an empty map whenever the counter already has a tags
    map, the store afterwards is the store before.  (An empty non-nil map
    given to a counter whose tags field is nil is adopted instead.) *)
Theorem AddTags_nothing (σ : Store) (p : ptr StandardCounter) (c : StandardCounter)
    (tags : tags_t) :
  standards σ !! addr p = Some c →
  entries σ tags = ∅ →
  tags = None ∨ std_tags c ≠ None →
  StandardCounter_AddTags p tags σ = Ok tt σ.
Proof.
  intros Hc He Hcase. destruct (std_tags c) as [l|] eqn:Hl.
  - rewrite (AddTags_merge_run _ _ _ Hc tags l Hl), He. by rewrite map_to_list_empty.
  - destruct Hcase as [->|?]; [|done].
    rewrite (AddTags_nil_run _ _ _ Hc None Hl). f_equal.
    apply with_std_same. rewrite Hc. f_equal. destruct c. simpl in *. by subst.
Qed.

Lemma AddTags_nothing_witness :
  StandardCounter_AddTags (Ptr 1%positive) None tagged_store = Ok tt tagged_store.
Proof.
  apply (AddTags_nothing tagged_store (Ptr 1%positive)
           (mkStandardCounter 9 (Some 2%positive)) None).
  - reflexivity.
  - reflexivity.
  - by left.
Defined.

Lemma entries_with_std σ p c t : entries (with_std σ p c) t = entries σ t.
Proof. by destruct t. Qed.

Lemma set_maps_same σ l m : maps σ !! l = Some m → set_maps (insert l m) σ = σ.
Proof.
  intros Hl. destruct σ as [f ms sn st]. unfold set_maps. simpl in *.
  by rewrite insert_id.
Qed.

(** Assigning pairs the map at [l] already holds changes nothing. *)
Lemma assign_at_subsumed σ l (m : gmap string string) :
  m ∪ entries σ (Some l) = entries σ (Some l) →
  assign_at l (map_to_list m) σ = σ.
Proof.
  intros Hsub. destruct (map_to_list m) as [|kv kvs] eqn:Hlist; [done|].
  rewrite assign_at_cons, <- Hlist, assign_list_map_to_list, Hsub.
  apply set_maps_same. simpl in *.
  destruct (maps σ !! l) as [e|]; [done|]. simpl in Hsub.
  rewrite (right_id_L ∅ (∪)) in Hsub. subst m.
  by rewrite map_to_list_empty in Hlist.
Qed.

(** AddTags is idempotent: on a live counter, a second AddTags with the
    same argument returns and leaves the store exactly as the first one
    left it.  This covers the argument being the counter's own map, as it
    is after the first call adopted it. *)
Theorem AddTags_idempotent (σ : Store) (p : ptr StandardCounter) (tags : tags_t) :
  is_Some (standards σ !! addr p) →
  ∃ σ1, StandardCounter_AddTags p tags σ = Ok tt σ1 ∧
        StandardCounter_AddTags p tags σ1 = Ok tt σ1.
Proof.
  intros [c Hc]. destruct (std_tags c) as [l0|] eqn:Hl0.
  - eexists. split; [by apply AddTags_merge_run with c|].
    set (σ1 := assign_at l0 (map_to_list (entries σ tags)) σ).
    assert (Hc1 : standards σ1 !! addr p = Some c).
    { unfold σ1. by rewrite assign_at_standards. }
    rewrite (AddTags_merge_run _ _ _ Hc1 tags l0 Hl0). f_equal.
    apply assign_at_subsumed.
    assert (He1 : entries σ1 (Some l0) = entries σ tags ∪ entries σ (Some l0)).
    { unfold σ1. by rewrite assign_at_entries, assign_list_map_to_list. }
    destruct (decide (tags = Some l0)) as [->|Hne].
    + by rewrite (idemp (∪) (entries σ1 (Some l0))).
    + replace (entries σ1 tags) with (entries σ tags).
      * rewrite He1, (assoc_L (∪)). by rewrite (idemp (∪) (entries σ tags)).
      * destruct tags as [l|]; [|done]. simpl. unfold σ1.
        rewrite assign_at_maps_ne; [done|congruence].
  - eexists. split; [by apply AddTags_nil_run|].
    set (c1 := mkStandardCounter (std_count c) tags).
    pose proof (with_std_lookup σ p c1) as Hc1.
    destruct tags as [l|].
    + rewrite (AddTags_merge_run _ _ _ Hc1 (Some l) l eq_refl). f_equal.
      apply assign_at_subsumed.
      by rewrite (idemp (∪) (entries (with_std σ p c1) (Some l))).
    + rewrite (AddTags_nil_run _ _ _ Hc1 None eq_refl). by rewrite with_std_twice.
Qed.

Lemma AddTags_idempotent_witness :
  ∃ σ1,
    StandardCounter_AddTags (Ptr 1%positive) (Some 1%positive) two_maps_store
    = Ok tt σ1 ∧
    StandardCounter_AddTags (Ptr 1%positive) (Some 1%positive) σ1 = Ok tt σ1.
Proof. apply (AddTags_idempotent two_maps_store). by eexists. Defined.

(** Adoption shares the caller's map.  When two distinct live counters
    whose tags fields are nil are both given the same map, a later
    AddTags(x) on the second is seen through the first: its GetTags()
    still returns that map, which now also holds the entries of x. *)
Theorem adopted_map_is_shared (σ : Store) (p d : ptr StandardCounter)
    (cp cd : StandardCounter) (l : loc) (x : tags_t) :
  standards σ !! addr p = Some cp →
  standards σ !! addr d = Some cd →
  addr p ≠ addr d →
  std_tags cp = None →
  std_tags cd = None →
  ∃ σ',
    (StandardCounter_AddTags p (Some l) ;;;
     StandardCounter_AddTags d (Some l) ;;;
     StandardCounter_AddTags d x ;;;
     StandardCounter_GetTags p) σ = Ok (Some l) σ' ∧
    entries σ' (Some l) = entries σ x ∪ entries σ (Some l).
Proof.
  intros Hp Hd Hne Hpnil Hdnil.
  rewrite (bind_Ok _ _ _ _ _ (AddTags_nil_run _ _ _ Hp (Some l) Hpnil)).
  set (cp1 := mkStandardCounter (std_count cp) (Some l)).
  set (σ1 := with_std σ p cp1).
  assert (Hd1 : standards σ1 !! addr d = Some cd).
  { unfold σ1. cbn [standards with_std set_standards]. by rewrite lookup_insert_ne. }
  rewrite (bind_Ok _ _ _ _ _ (AddTags_nil_run _ _ _ Hd1 (Some l) Hdnil)).
  set (cd1 := mkStandardCounter (std_count cd) (Some l)).
  set (σ2 := with_std σ1 d cd1).
  destruct (AddTags_merge_entries σ2 d cd1 x l (with_std_lookup _ _ _) eq_refl)
    as (σ3 & Hrun & Hstd & _ & Hent & _).
  rewrite (bind_Ok _ _ _ _ _ Hrun).
  assert (Hp3 : standards σ3 !! addr p = Some cp1).
  { rewrite Hstd. unfold σ2. cbn [standards with_std set_standards].
    rewrite lookup_insert_ne by done. apply with_std_lookup. }
  exists σ3. split; [by rewrite (GetTags_run _ _ _ Hp3)|].
  rewrite Hent. unfold σ2, σ1. by rewrite !entries_with_std.
Qed.

Lemma adopted_map_is_shared_witness :
  ∃ σ',
    (StandardCounter_AddTags (Ptr 1%positive) (Some 1%positive) ;;;
     StandardCounter_AddTags (Ptr 2%positive) (Some 1%positive) ;;;
     StandardCounter_AddTags (Ptr 2%positive) (Some 2%positive) ;;;
     StandardCounter_GetTags (Ptr 1%positive)) two_counters_store
    = Ok (Some 1%positive) σ' ∧
    entries σ' (Some 1%positive)
    = entries two_counters_store (Some 2%positive)
      ∪ entries two_counters_store (Some 1%positive).
Proof.
  apply (adopted_map_is_shared two_counters_store (Ptr 1%positive) (Ptr 2%positive)
           (mkStandardCounter 0 None) (mkStandardCounter 4 None));
    by vm_compute.
Defined.

(* ===================================================================== *)
(** * Further properties: snapshots *)
(* ===================================================================== *)

(** Snapshot() on a StandardCounter makes a new object every time: two
    snapshots taken one after the other are different objects that both
    report the counter's count and tag entries, and when they carry tags
    they carry different map objects. *)
Theorem Snapshot_twice_distinct (σ : Store) (p : ptr StandardCounter)
    (c : StandardCounter) :
  standards σ !! addr p = Some c →
  ∃ q1 q2 t1 t2 σ2,
    (s1 <~ StandardCounter_Snapshot p ;;
     s2 <~ StandardCounter_Snapshot p ;;
     ret (s1, s2)) σ = Ok (ISnapshot q1, ISnapshot q2) σ2 ∧
    addr q1 ≠ addr q2 ∧
    CounterSnapshot_Count q1 σ2 = Ok (std_count c) σ2 ∧
    CounterSnapshot_Count q2 σ2 = Ok (std_count c) σ2 ∧
    CounterSnapshot_GetTags q1 σ2 = Ok t1 σ2 ∧
    CounterSnapshot_GetTags q2 σ2 = Ok t2 σ2 ∧
    entries σ2 t1 = entries σ (std_tags c) ∧
    entries σ2 t2 = entries σ (std_tags c) ∧
    (∀ l, t1 = Some l → t2 ≠ Some l).
Proof.
  intros Hc.
  destruct (Snapshot_separate σ p c Hc)
    as (q1 & s1 & σ1 & Hrun1 & _ & Hcount1 & Hsep1 & Hent1 & _ & _).
  (* the counter is as it was after the first snapshot *)
  destruct (invoke_standard σ p c CallSnapshot Hc)
    as (r & σ1' & c' & Hinv & Hc1 & _ & Hkeep).
  change (invoke (IStandard p) CallSnapshot σ)
    with ((s <~ StandardCounter_Snapshot p ;; ret (RCounter s)) σ) in Hinv.
  rewrite (bind_Ok _ _ _ _ _ Hrun1) in Hinv. injection Hinv as _ <-.
  destruct Hkeep as [-> Hentc].
  destruct (Snapshot_separate σ1 p c Hc1)
    as (q2 & s2 & σ2 & Hrun2 & Hnew2 & Hcount2 & Hsep2 & Hent2 & _ & Hfresh2).
  (* the first snapshot is as it was after the second *)
  destruct (separate_step σ1 p q1 s1 CallSnapshot Hsep1)
    as (r' & σ2' & Hinv' & Hsep1' & Hent1').
  change (invoke (IStandard p) CallSnapshot σ1)
    with ((s <~ StandardCounter_Snapshot p ;; ret (RCounter s)) σ1) in Hinv'.
  rewrite (bind_Ok _ _ _ _ _ Hrun2) in Hinv'. injection Hinv' as _ <-.
  destruct Hsep1 as (Hs1 & c1 & _ & Hmaps1).
  destruct Hsep1' as (Hs1' & _). destruct Hsep2 as (Hs2 & _).
  exists q1, q2, (snap_tags s1), (snap_tags s2), σ2.
  split. { rewrite (bind_Ok _ _ _ _ _ Hrun1). by rewrite (bind_Ok _ _ _ _ _ Hrun2). }
  split. { intros Heq. rewrite Heq in Hs1. congruence. }
  split; [by rewrite (CounterSnapshot_Count_Ok _ _ _ Hs1'), Hcount1|].
  split; [by rewrite (CounterSnapshot_Count_Ok _ _ _ Hs2), Hcount2|].
  split; [by rewrite (CounterSnapshot_GetTags_Ok _ _ _ Hs1')|].
  split; [by rewrite (CounterSnapshot_GetTags_Ok _ _ _ Hs2)|].
  split; [congruence|]. split; [congruence|].
  intros l Hl1 Hl2.
  destruct (Hmaps1 l Hl1) as [[m Hm] _].
  destruct (Hfresh2 l Hl2) as [Hnone _]. congruence.
Qed.

Lemma Snapshot_twice_distinct_witness :
  ∃ q1 q2 t1 t2 σ2,
    (s1 <~ StandardCounter_Snapshot (Ptr 1%positive) ;;
     s2 <~ StandardCounter_Snapshot (Ptr 1%positive) ;;
     ret (s1, s2)) tagged_store = Ok (ISnapshot q1, ISnapshot q2) σ2 ∧
    addr q1 ≠ addr q2 ∧
    CounterSnapshot_Count q1 σ2 = Ok 9 σ2 ∧
    CounterSnapshot_Count q2 σ2 = Ok 9 σ2 ∧
    CounterSnapshot_GetTags q1 σ2 = Ok t1 σ2 ∧
    CounterSnapshot_GetTags q2 σ2 = Ok t2 σ2 ∧
    entries σ2 t1 = entries tagged_store (Some 2%positive) ∧
    entries σ2 t2 = entries tagged_store (Some 2%positive) ∧
    (∀ l, t1 = Some l → t2 ≠ Some l).
Proof.
  apply (Snapshot_twice_distinct tagged_store (Ptr 1%positive)
           (mkStandardCounter 9 (Some 2%positive))).
  reflexivity.
Defined.

(* ===================================================================== *)
(** * Further properties: iteration order *)
(* ===================================================================== *)

Lemma assign_at_Permutation l kvs kvs' σ :
  NoDup kvs.*1 → kvs ≡ₚ kvs' → assign_at l kvs σ = assign_at l kvs' σ.
Proof.
  intros Hnd Hperm. destruct kvs as [|kv kvs0], kvs' as [|kv' kvs0'].
  - done.
  - by apply Permutation_nil_cons in Hperm.
  - symmetry in Hperm. by apply Permutation_nil_cons in Hperm.
  - rewrite !assign_at_cons. by rewrite (range_order_irrelevant _ _ _ Hnd Hperm).
Qed.

(** Go visits the pairs of a map in no fixed order.  Neither range loop of
    this file depends on it: on a counter that has a tags map, the loop of
    AddTags run over the argument's pairs in any order ends in the store
    AddTags ends in, and the copying loop of Snapshot run over the pairs
    of any map in any order ends in the same store as in the order chosen
    here. *)
Theorem loops_ignore_range_order (σ : Store) (p : ptr StandardCounter)
    (c : StandardCounter) (tags : tags_t) (kvs : list (string * string)) :
  standards σ !! addr p = Some c →
  std_tags c ≠ None →
  kvs ≡ₚ map_to_list (entries σ tags) →
  for_each kvs (λ kv, t <~ load_std_tags p ;; map_assign t kv.1 kv.2) σ
  = StandardCounter_AddTags p tags σ ∧
  ∀ tagsCopy : loc,
    for_each kvs (λ kv, map_assign (Some tagsCopy) kv.1 kv.2) σ
    = for_each (map_to_list (entries σ tags))
        (λ kv, map_assign (Some tagsCopy) kv.1 kv.2) σ.
Proof.
  intros Hc Htags Hperm.
  assert (Hnd : NoDup (map_to_list (entries σ tags)).*1)
    by apply NoDup_fst_map_to_list.
  symmetry in Hperm. split.
  - destruct (std_tags c) as [l|] eqn:Hl; [|done].
    rewrite (for_each_assign_field p l kvs σ c Hc Hl).
    rewrite (AddTags_merge_run _ _ _ Hc tags l Hl). f_equal.
    symmetry. by apply assign_at_Permutation.
  - intros l. rewrite !for_each_assign. f_equal.
    symmetry. by apply assign_at_Permutation.
Qed.

Lemma loops_ignore_range_order_witness :
  for_each [("b", "3"); ("a", "2")]
    (λ kv, t <~ load_std_tags (Ptr 1%positive) ;; map_assign t kv.1 kv.2) tagged_store
  = StandardCounter_AddTags (Ptr 1%positive) (Some 2%positive) tagged_store ∧
  ∀ tagsCopy : loc,
    for_each [("b", "3"); ("a", "2")]
      (λ kv, map_assign (Some tagsCopy) kv.1 kv.2) tagged_store
    = for_each (map_to_list (entries tagged_store (Some 2%positive)))
        (λ kv, map_assign (Some tagsCopy) kv.1 kv.2) tagged_store.
Proof.
  apply (loops_ignore_range_order tagged_store (Ptr 1%positive)
           (mkStandardCounter 9 (Some 2%positive)) (Some 2%positive)).
  - reflexivity.
  - discriminate.
  - vm_compute. apply perm_swap.
Defined.
